(** * Monte Carlo path tracer: the integrator of [Raytracer.cpp]

    A shallow embedding of [Raytracer::cast_line], [ToneMap], [Trace], [Cast],
    [Shade], [SampleProjectedHemisphere] and [SampleSpecularLobe], and the
    properties of them that the specification states.

    Conventions of the embedding.
    - [float] and [double] values are the finite ones, read as rationals [Q];
      [+ - * /] on them is exact rational arithmetic, and [sqrt], [cos],
      [sin], [pow] are functions on [Q] supplied by the environment.
    - [int] values are integers reduced into the 32-bit signed range by
      [wrap_int]; [channel] is an unsigned byte.  Signed overflow and the
      conversion of an out-of-range [double] to [int] are undefined in
      C++: the statements about them carry the hypothesis that the values
      fit, and inside the range [wrap_int] is the identity.
    - The random number generator is a position in a sequence of draws.
    - Where rounding decides a property, the body of the function is run
      on IEEE binary64 numbers as well ([Binary64]).
    - Everything declared in the headers ([Vec3] and [Color] operators,
      [Unit], [Length], [Reflection], [Material::Emitter], [rand], the
      constants) is a field of the class [Collaborators]. *)

From Stdlib Require Import ZArith QArith Qround Lqa List Bool Lia Arith.
From Stdlib Require Floats.
From Equations Require Import Equations.
Import ListNotations.

Local Open Scope Z_scope.

(** ** Machine integers *)

Definition int_min : Z := - 2 ^ 31.
Definition int_max : Z := 2 ^ 31 - 1.

(** An [int] result: the value itself inside the range, reduced modulo
    2^32 (two's complement) outside it. *)
Definition wrap_int (v : Z) : Z := (v + 2 ^ 31) mod 2 ^ 32 - 2 ^ 31.

(** Conversion of an [int] to [channel], an unsigned byte. *)
Definition channel_of_int (v : Z) : Z := v mod 256.

(** [(int)floor(q)]: the floor itself when an [int] holds it. *)
Definition int_of_floor (q : Q) : Z := wrap_int (Qfloor q).

(** ** Data model *)

Record Vec3 := mkVec3 { x : Q; y : Q; z : Q }.

Record Color := mkColor { red : Q; green : Q; blue : Q }.

Record Pixel := mkPixel { r : Z; g : Z; b : Z }.

Record Ray := mkRay { origin : Vec3; direction : Vec3; no_emitters : bool }.

Record Material := mkMaterial {
  m_Diffuse : Color;
  m_Specular : Color;
  m_Emission : Color;
  m_Phong_exp : Q }.

Record HitGeom := mkHitGeom {
  point : Vec3;
  normal : Vec3;
  distance : Q;
  geom_origin : Vec3 }.

Record HitInfo := mkHitInfo { geom : HitGeom; material : Material }.

Record Sample := mkSample { P : Vec3; w : Q }.

(** ** ToneMap *)

Local Open Scope Q_scope.

Definition ToneMap (color : Color) : Pixel :=
  let red := int_of_floor (256 * red color) in
  let green := int_of_floor (256 * green color) in
  let blue := int_of_floor (256 * blue color) in
  let r := channel_of_int (if (255 <=? red)%Z then 255%Z else red) in
  let g := channel_of_int (if (255 <=? green)%Z then 255%Z else green) in
  let b := channel_of_int (if (255 <=? blue)%Z then 255%Z else blue) in
  mkPixel r g b.

(** One channel of [ToneMap]. *)
Definition tone_channel (c : Q) : Z :=
  let v := int_of_floor (256 * c) in
  channel_of_int (if (255 <=? v)%Z then 255%Z else v).

(** The scaled channel is a value an [int] holds. *)
Definition fits_int (c : Q) : Prop :=
  (int_min <= Qfloor (256 * c) <= int_max)%Z.

(** What [ToneMap] makes of a channel value [c]: a byte, 255 from 255/256
    upwards, the floor of [256 * c] below that down to zero, and for a
    negative value the residue modulo 256 of that (negative) floor. *)
Definition tone_spec (c : Q) (ch : Z) : Prop :=
  (0 <= ch <= 255)%Z
  /\ (255 # 256 <= c -> ch = 255%Z)
  /\ (0 <= c -> c < 255 # 256 -> ch = Qfloor (256 * c))
  /\ (c < 0 -> ch = (Qfloor (256 * c) mod 256)%Z).

(** ** Scene, camera and renderer state *)

Module Object.
(** An object of the scene: its material and its two virtual methods.
    [Intersect] returns its verdict together with the geometry record as
    it leaves it; [GetSample] may consume random draws. *)
Record t := mk {
  material : Material;
  Intersect : Ray -> HitGeom -> bool * HitGeom;
  GetSample : Vec3 -> Vec3 -> nat -> Sample * nat }.
End Object.

(** The linked list [first], [next], ... read as a list; an object pointer
    is the position of the object in it. *)
Record Scene := mkScene { objects : list Object.t; bgcolor : Color }.

Record Camera := mkCamera { eye : Vec3; lookat : Vec3; up : Vec3; vpdist : Q }.

Record World := mkWorld { getCamera : Camera; getScene : Scene }.

(** The image as the list of the pixel assignments made, newest first. *)
Definition Image := list (Z * Z * Pixel).

Record Raytracer := mkRaytracer {
  resolutionX : Z;
  resolutionY : Z;
  currentLine : Z;
  I : Image;
  isDone : bool;
  Resultat_ppm : option Image }.

Definition tree_depth : Z := 1.
Definition rays_pixel : Z := 50.

(** [Color()] and the reset at the end of each pixel of [cast_line].
    Modelled from the spec: the default colour is the zero (black) colour. *)
Definition Color_zero : Color := mkColor 0 0 0.

Definition Qltb (a b : Q) : bool := negb (Qle_bool b a).

(** ** What the headers declare *)

Class Collaborators := {
  (* Vec3 *)
  Vec3_add : Vec3 -> Vec3 -> Vec3;
  Vec3_sub : Vec3 -> Vec3 -> Vec3;
  Vec3_neg : Vec3 -> Vec3;
  Vec3_scale : Q -> Vec3 -> Vec3;
  Vec3_div : Vec3 -> Q -> Vec3;
  Vec3_dot : Vec3 -> Vec3 -> Q;
  Vec3_cross : Vec3 -> Vec3 -> Vec3;
  Vec3_reject : Vec3 -> Vec3 -> Vec3;
  Length : Vec3 -> Q;
  Unit : Vec3 -> Vec3;
  Reflection : Vec3 -> Vec3 -> Vec3;
  Vec3_default : Vec3;
  (* Color *)
  Color_add : Color -> Color -> Color;
  Color_scale : Q -> Color -> Color;
  Color_mul : Color -> Color -> Color;
  Color_div : Color -> Q -> Color;
  (* Material *)
  Emitter : Material -> bool;
  Material_default : Material;
  (* math.h *)
  sqrt : Q -> Q;
  cos : Q -> Q;
  sin : Q -> Q;
  pow : Q -> Q -> Q;
  (* constants *)
  Pi : Q;
  Epsilon : Q;
  Infinity : Q;
  (* rand(a, b): the value of the n-th draw of the run *)
  rand_at : nat -> Q -> Q -> Q }.

(** ** Execution state and its monad *)

(** What a run leaves behind: the calls of [Trace], and each time [Trace]
    blanks an emitter for a ray that suppresses them. *)
Inductive Event :=
| TraceCall (ray : Ray) (max_tree_depth : Z)
| EmitterSuppressed.

Record Exec := mkExec { draws : nat; calls : list Event }.

(** A computation reads and advances the execution state; it has no
    result when the recursion budget of the model is used up. *)
Definition M (A : Type) : Type := Exec -> option A * Exec.

Definition ret {A} (a : A) : M A := fun st => (Some a, st).

Definition bind {A B} (m : M A) (k : A -> M B) : M B :=
  fun st => match m st with
            | (Some a, st') => k a st'
            | (None, st') => (None, st')
            end.

Definition out_of_fuel {A} : M A := fun st => (None, st).

Definition record (e : Event) : M unit :=
  fun st => (Some tt, mkExec (draws st) (e :: calls st)).

Definition with_rng {A} (f : nat -> A * nat) : M A :=
  fun st => let (a, n) := f (draws st) in (Some a, mkExec n (calls st)).

(** An event of a run in which no ray suppresses emitters. *)
Definition unsuppressed (e : Event) : Prop :=
  match e with
  | TraceCall ray _ => no_emitters ray = false
  | EmitterSuppressed => False
  end.

(** A computation that adds no other events to such a run, and whose
    result, when it has one, satisfies [Post]. *)
Definition keeps {A} (Post : A -> Prop) (m : M A) : Prop :=
  forall st, Forall unsuppressed (calls st) ->
             Forall unsuppressed (calls (snd (m st)))
             /\ (forall a, fst (m st) = Some a -> Post a).

Definition quiet {A} (m : M A) : Prop := keeps (fun _ => True) m.

Notation "x <- m ;; k" := (bind m (fun x => k))
  (at level 61, m at next level, right associativity).
Notation "m ;;; k" := (bind m (fun _ => k))
  (at level 61, right associativity).

Fixpoint foldM {A S} (body : A -> S -> M S) (l : list A) (s : S) : M S :=
  match l with
  | [] => ret s
  | a :: l' => s' <- body a s ;; foldM body l' s'
  end.

(** ** The integrator *)

Section Integrator.
Context {collaborators : Collaborators}.

Definition rand (a b : Q) : M Q :=
  with_rng (fun n => (rand_at n a b, S n)).

(** *** Cast *)

(** [object != ignore], on object pointers. *)
Definition is_ignored (idx : nat) (ignore : option nat) : bool :=
  match ignore with
  | Some i => Nat.eqb idx i
  | None => false
  end.

(** The body of the loop of [Cast] for the object at position [idx]:
    the record and the [hit] flag after it. *)
Definition Cast_step (ray : Ray) (ignore : option nat) (idx : nat)
    (object : Object.t) (state : bool * HitInfo) : bool * HitInfo :=
  let (hit, hitinfo) := state in
  if negb (is_ignored idx ignore) then
    let (found, geom') := Object.Intersect object ray (geom hitinfo) in
    if found
    then (true, mkHitInfo geom' (Object.material object))
    else (hit, mkHitInfo geom' (material hitinfo))
  else (hit, hitinfo).

Fixpoint Cast_from (idx : nat) (objs : list Object.t) (ray : Ray)
    (ignore : option nat) (state : bool * HitInfo) : bool * HitInfo :=
  match objs with
  | [] => state
  | object :: rest =>
      Cast_from (S idx) rest ray ignore (Cast_step ray ignore idx object state)
  end.

Definition Cast (ray : Ray) (scene : Scene) (hitinfo : HitInfo)
    (ignore : option nat) : bool * HitInfo :=
  Cast_from 0 (objects scene) ray ignore (false, hitinfo).

(** One entry per object visited by [Cast]: the record before and after
    the object, and whether the material field was assigned. *)
Record CastVisit := mkCastVisit {
  before : HitInfo;
  after : HitInfo;
  material_written : bool }.

Definition Cast_visit (ray : Ray) (ignore : option nat) (idx : nat)
    (object : Object.t) (hitinfo : HitInfo) : CastVisit :=
  mkCastVisit hitinfo
    (snd (Cast_step ray ignore idx object (false, hitinfo)))
    (negb (is_ignored idx ignore)
     && fst (Object.Intersect object ray (geom hitinfo))).

Fixpoint Cast_visits (idx : nat) (objs : list Object.t) (ray : Ray)
    (ignore : option nat) (hitinfo : HitInfo) : list CastVisit :=
  match objs with
  | [] => []
  | object :: rest =>
      let v := Cast_visit ray ignore idx object hitinfo in
      v :: Cast_visits (S idx) rest ray ignore (after v)
  end.

(** The contract of an intersector: it answers true only when it has
    written a strictly smaller distance into the record. *)
Definition closer_or_false (object : Object.t) : Prop :=
  forall ray geom,
    fst (Object.Intersect object ray geom) = true ->
    distance (snd (Object.Intersect object ray geom)) < distance geom.

(** A visit assigns the material only together with a strict decrease of
    the distance, and otherwise leaves the material alone. *)
Definition lockstep (v : CastVisit) : Prop :=
  (material_written v = true ->
   distance (geom (after v)) < distance (geom (before v)))
  /\ (material_written v = false -> material (after v) = material (before v)).

(** *** The Russian roulette of Shade *)

Definition roulette_measure (posi : Q) : nat :=
  if Qle_bool 0 posi then S (Z.to_nat (Qfloor posi)) else O.

Lemma roulette_measure_stop posi :
  0 <= posi -> (roulette_measure (-1) < roulette_measure posi)%nat.
Proof.
  intros H. unfold roulette_measure.
  apply Qle_bool_iff in H. rewrite H. cbn. lia.
Qed.

Lemma roulette_measure_extend posi :
  0 <= posi -> (roulette_measure (posi - 15) < roulette_measure posi)%nat.
Proof.
  intros H. unfold roulette_measure.
  pose proof H as Hb. apply Qle_bool_iff in Hb. rewrite Hb.
  destruct (Qle_bool 0 (posi - 15)) eqn:E; [|lia].
  apply Qle_bool_iff in E.
  pose proof (Qfloor_le (posi - 15)) as Hlo.
  pose proof (Qlt_floor posi) as Hhi.
  pose proof (Qfloor_resp_le _ _ E) as Hpos.
  change (Qfloor 0) with 0%Z in Hpos.
  assert (Hlt : inject_Z (Qfloor (posi - 15)) < inject_Z (Qfloor posi - 14)).
  { replace (Qfloor posi - 14)%Z with ((Qfloor posi + 1) + - 15)%Z by lia.
    rewrite (inject_Z_plus (Qfloor posi + 1) (- 15)).
    change (inject_Z (- 15)) with (- (15)).
    set (lo := inject_Z (Qfloor (posi - 15))) in *.
    set (hi := inject_Z (Qfloor posi + 1)) in *.
    clearbody lo hi. lra. }
  rewrite <- Zlt_Qlt in Hlt. lia.
Qed.

(** [while (posi >= 0 && russian)], with [russian] always true; [iters]
    counts the passes through the body, [n] is the position in the
    sequence of draws. *)
Equations? roulette_loop (posi : Q) (num_reb : Z) (iters : nat) (n : nat)
    : Z * nat * nat by wf (roulette_measure posi) lt :=
  roulette_loop posi num_reb iters n with Qlt_le_dec posi 0 := {
    | left _ := (num_reb, iters, n);
    | right Hge with Qlt_le_dec posi (rand_at n 0 99) := {
        | left _ := roulette_loop (-1) num_reb (S iters) (S n);
        | right _ :=
            roulette_loop (posi - 15) (wrap_int (num_reb + 1))
              (S iters) (S n) } }.
Proof.
  - apply roulette_measure_stop; assumption.
  - apply roulette_measure_extend; assumption.
Qed.

Definition roulette (max_tree_depth : Z) : M Z :=
  with_rng (fun n =>
    let '(num_reb, _, n') := roulette_loop 100 max_tree_depth 0 n in
    (num_reb, n')).

(** *** Sampling routines *)

Definition SampleProjectedHemisphere (N : Vec3) : M Sample :=
  let v := mkVec3 0 0 1 in
  s_rand <- rand 0 1 ;;
  t_rand <- rand 0 1 ;;
  let aux_x := sqrt t_rand * cos (2 * Pi * s_rand) in
  let aux_y := sqrt t_rand * sin (2 * Pi * s_rand) in
  let aux_z := 1 - pow aux_x 2 - pow aux_y 2 in
  let aux_z := if Qltb 0 aux_z then sqrt aux_z else 0 in
  let aux := mkVec3 aux_x aux_y aux_z in
  let aux_mig := Unit (Vec3_add v N) in
  ret (mkSample (Reflection (Vec3_neg aux) aux_mig) Pi).

Definition SampleSpecularLobe (R : Vec3) (phong_exp : Q) : M Sample :=
  let v := mkVec3 0 0 1 in
  s <- rand 0 1 ;;
  t <- rand 0 1 ;;
  let e := 2 / (phong_exp + 1) in
  let spri := sqrt (1 - pow s e) in
  let P_x := spri * cos (2 * Pi * t) in
  let P_y := spri * sin (2 * Pi * t) in
  let P_z := sqrt (1 - pow P_x 2 - pow P_y 2) in
  let aux_mig := Vec3_div (Vec3_add v R) (Length (Vec3_add v R)) in
  ret (mkSample (Reflection (Vec3_neg (mkVec3 P_x P_y P_z)) aux_mig)
                ((2 * Pi) / (phong_exp + 2))).

(** *** Shade *)

(** The locals of [Shade] that its loop over the objects reads and
    writes; all four are declared before the loop. *)
Record DirectState := mkDirectState {
  shadows : Ray;
  diffuse : Color;
  specular : Color;
  direct : Color }.

(** The body of the direct lighting loop for the object at [idx]. *)
Definition direct_step (hit : HitInfo) (scene : Scene) (V : Vec3)
    (idx : nat) (object : Object.t) (s : DirectState) : M DirectState :=
  let N := normal (geom hit) in
  let cdirect := true in
  if Emitter (Object.material object) && cdirect then
    S <- with_rng (Object.GetSample object (point (geom hit)) (normal (geom hit))) ;;
    let to_light := Vec3_sub (P S) (point (geom hit)) in
    let shadows' :=
      mkRay (origin (shadows s)) (Unit to_light) (no_emitters (shadows s)) in
    let vacio :=
      mkHitInfo
        (mkHitGeom Vec3_default Vec3_default (Length to_light) Vec3_default)
        Material_default in
    if fst (Cast shadows' scene vacio (Some idx)) then
      (* continue *)
      ret (mkDirectState shadows' (diffuse s) (specular s) (direct s))
    else
      let L := Unit to_light in
      let R := Reflection L N in
      let NL := Vec3_dot N L in
      let NL := if Qltb NL 0 then 0 else NL in
      let diffuse' := Color_scale NL (m_Diffuse (material hit)) in
      let RV := Vec3_dot R V in
      let specular' :=
        if Qltb 0 RV && Qltb 0 (m_Phong_exp (material hit))
        then Color_scale (pow RV (m_Phong_exp (material hit)))
                         (m_Specular (material hit))
        else specular s in
      let irradiance := Color_scale (w S) (m_Emission (Object.material object)) in
      ret (mkDirectState shadows' diffuse' specular'
             (Color_add (direct s)
                (Color_mul (Color_add diffuse' specular') irradiance)))
  else ret s.

(** The objects of a scene with their positions. *)
Definition indexed (objs : list Object.t) : list (nat * Object.t) :=
  combine (seq 0 (length objs)) objs.

Definition direct_lighting (hit : HitInfo) (scene : Scene) (V : Vec3)
    (s : DirectState) : M DirectState :=
  foldM (fun io => direct_step hit scene V (fst io) (snd io))
        (indexed (objects scene)) s.

(** [contriD <= u < (contriD + contriS)]: the comparison [contriD <= u]
    yields 0 or 1, which is then compared with the sum. *)
Definition chained_comparison (contriD u contriS : Q) : bool :=
  Qltb (if Qle_bool contriD u then 1 else 0) (contriD + contriS).

(** The specular half of the indirect estimate: [indirect_spec]. *)
Definition indirect_specular (trace : Ray -> Scene -> Z -> M Color)
    (lobe : Vec3 -> Q -> M Sample)
    (hit : HitInfo) (scene : Scene) (V : Vec3) (num_reb : Z)
    (contriD contriS u : Q) : M Color :=
  let N := normal (geom hit) in
  if Qltb 0 (m_Phong_exp (material hit))
     && chained_comparison contriD u contriS then
    let ref := Reflection V N in
    S2 <- lobe ref (m_Phong_exp (material hit)) ;;
    let rayo1 :=
      mkRay (Vec3_add (point (geom hit)) (Vec3_scale Epsilon N)) (P S2) false in
    traced <- trace rayo1 scene num_reb ;;
    ret (Color_mul
           (Color_scale ((m_Phong_exp (material hit) + 2) / (2 * Pi))
              (Color_scale (w S2) (m_Specular (material hit))))
           traced)
  else ret Color_zero.

(** [Shade], with the function it calls for the bounce rays as a
    parameter. *)
Definition Shade_with (trace : Ray -> Scene -> Z -> M Color)
    (hit : HitInfo) (scene : Scene) (max_tree_depth : Z) : M Color :=
  if Emitter (material hit) then ret (m_Diffuse (material hit))
  else
    let N := normal (geom hit) in
    let shadows :=
      mkRay (Vec3_add (point (geom hit)) (Vec3_scale Epsilon N))
            Vec3_default false in
    num_reb <- roulette max_tree_depth ;;
    u <- rand 0 1 ;;
    let contriS :=
      (blue (m_Specular (material hit)) + red (m_Specular (material hit))
       + green (m_Specular (material hit))) / 3 in
    let contriD :=
      (blue (m_Diffuse (material hit)) + red (m_Diffuse (material hit))
       + green (m_Diffuse (material hit))) / 3 in
    let V := Unit (Vec3_sub (point (geom hit)) (geom_origin (geom hit))) in
    lit <- direct_lighting hit scene V
             (mkDirectState shadows Color_zero Color_zero Color_zero) ;;
    indirect <-
      (if Qltb u (contriD + contriS) then
         S1 <- SampleProjectedHemisphere N ;;
         let rayo :=
           mkRay (Vec3_add (point (geom hit)) (Vec3_scale Epsilon N))
                 (P S1) false in
         indirect_diff <-
           (if Qltb u contriD then
              traced <- trace rayo scene num_reb ;;
              ret (Color_mul
                     (Color_div (Color_scale (w S1) (m_Diffuse (material hit))) Pi)
                     traced)
            else ret Color_zero) ;;
         indirect_spec <-
           indirect_specular trace SampleSpecularLobe hit scene V num_reb
             contriD contriS u ;;
         ret (Color_add indirect_diff indirect_spec)
       else ret Color_zero) ;;
    ret (Color_add (direct lit) indirect).

(** *** Trace *)

(** The record [Trace] hands to [Cast]: default-constructed, with the
    distance set to [Infinity]. *)
Definition fresh_hitinfo : HitInfo :=
  mkHitInfo (mkHitGeom Vec3_default Vec3_default Infinity Vec3_default)
            Material_default.

Definition Trace_with (shade : HitInfo -> Scene -> Z -> M Color)
    (ray : Ray) (scene : Scene) (max_tree_depth : Z) : M Color :=
  record (TraceCall ray max_tree_depth) ;;;
  let (hit, hitinfo) := Cast ray scene fresh_hitinfo None in
  if hit && (-1 <? max_tree_depth)%Z then
    if Emitter (material hitinfo) && no_emitters ray
    then record EmitterSuppressed ;;; ret Color_zero
    else shade hitinfo scene (wrap_int (max_tree_depth - 1))
  else ret (bgcolor scene).

(** [Trace] and [Shade] call each other; [fuel] bounds how deep the
    calls of [Trace] may nest. *)
Fixpoint Trace (fuel : nat) (ray : Ray) (scene : Scene)
    (max_tree_depth : Z) {struct fuel} : M Color :=
  Trace_with
    (Shade_with
       (fun r s d =>
          match fuel with
          | O => out_of_fuel
          | S fuel' => Trace fuel' r s d
          end))
    ray scene max_tree_depth.

Definition bounce (fuel : nat) : Ray -> Scene -> Z -> M Color :=
  fun r s d =>
    match fuel with
    | O => out_of_fuel
    | S fuel' => Trace fuel' r s d
    end.

Definition Shade (fuel : nat) (hit : HitInfo) (scene : Scene)
    (max_tree_depth : Z) : M Color :=
  Shade_with (bounce fuel) hit scene max_tree_depth.

(** *** cast_line *)

(** The locals of [cast_line] that live across the pixels of a line.
    In the multisampling branch the two draws of one direction are taken
    left to right; [cout] is left out, and [I->Write] sets [Resultat_ppm]. *)
Record LineState := mkLineState {
  ray : Ray;
  color : Color;
  image : Image }.

Definition cast_pixel (fuel : nat) (rt : Raytracer) (world : World)
    (O dR dU : Vec3) (i : nat) (s : LineState) : M LineState :=
  let i := Z.of_nat i in
  s' <-
    (if (rays_pixel =? 1)%Z then
       let ray' :=
         mkRay (origin (ray s))
           (Unit (Vec3_sub (Vec3_add O (Vec3_scale (inject_Z i) dR))
                           (Vec3_scale (inject_Z (currentLine rt)) dU)))
           (no_emitters (ray s)) in
       traced <- Trace fuel ray' (getScene world) tree_depth ;;
       ret (mkLineState ray' traced (image s))
     else
       foldM (fun (_ : nat) (s : LineState) =>
                a <- rand 0 1 ;;
                b <- rand 0 1 ;;
                let ray' :=
                  mkRay (origin (ray s))
                    (Unit (Vec3_sub
                             (Vec3_add O (Vec3_scale (inject_Z i + a - (1 # 2)) dR))
                             (Vec3_scale (inject_Z (currentLine rt) + b - (1 # 2)) dU)))
                    (no_emitters (ray s)) in
                traced <- Trace fuel ray' (getScene world) tree_depth ;;
                ret (mkLineState ray' (Color_add (color s) traced) (image s)))
             (seq 0 (Z.to_nat rays_pixel)) s) ;;
  ret (mkLineState (ray s')
         Color_zero
         (((resolutionY rt - currentLine rt - 1)%Z, i,
           ToneMap (Color_div (color s') (inject_Z rays_pixel)))
          :: image s')).

Definition cast_line (fuel : nat) (rt : Raytracer) (world : World)
    : M Raytracer :=
  let ray0 := mkRay (eye (getCamera world)) Vec3_default false in
  let G := Unit (Vec3_sub (lookat (getCamera world)) (eye (getCamera world))) in
  let U := Unit (Vec3_reject (up (getCamera world)) G) in
  let R := Unit (Vec3_cross G U) in
  let O := Vec3_add (Vec3_sub (Vec3_scale (vpdist (getCamera world)) G) R) U in
  let dU := Vec3_scale (2 / inject_Z (resolutionY rt - 1)) U in
  let dR := Vec3_scale (2 / inject_Z (resolutionX rt - 1)) R in
  s <- foldM (cast_pixel fuel rt world O dR dU)
             (seq 0 (Z.to_nat (resolutionX rt)))
             (mkLineState ray0 Color_zero (I rt)) ;;
  let line := wrap_int (currentLine rt + 1) in
  if (line =? resolutionY rt)%Z
  then ret (mkRaytracer (resolutionX rt) (resolutionY rt) line (image s)
                        true (Some (image s)))
  else ret (mkRaytracer (resolutionX rt) (resolutionY rt) line (image s)
                        (isDone rt) (Resultat_ppm rt)).

(** A function to trace rays that is quiet on the rays that do not
    suppress emitters. *)
Definition quiet_tracer (trace : Ray -> Scene -> Z -> M Color) : Prop :=
  forall ray scene d, no_emitters ray = false -> quiet (trace ray scene d).

(** The ray of [cast_line] keeps the flag it is given at the start. *)
Definition primary (s : LineState) : Prop := no_emitters (ray s) = false.

End Integrator.

(** ** A concrete environment

    The collaborators over exact rationals, used to run the integrator on
    concrete scenes.  The vector and colour operators are componentwise;
    [Qsqrt] is exact on squares of rationals (the scenes below only
    normalise such vectors) and rounds down to 26 binary digits elsewhere;
    [Qpow] is exact for integral exponents; the trigonometric functions are
    low-order polynomials, which the runs below never reach. *)

Module Demo.

Definition vadd (a b : Vec3) := mkVec3 (x a + x b) (y a + y b) (z a + z b).
Definition vsub (a b : Vec3) := mkVec3 (x a - x b) (y a - y b) (z a - z b).
Definition vneg (a : Vec3) := mkVec3 (- x a) (- y a) (- z a).
Definition vscale (k : Q) (a : Vec3) := mkVec3 (k * x a) (k * y a) (k * z a).
Definition vdiv (a : Vec3) (k : Q) := mkVec3 (x a / k) (y a / k) (z a / k).
Definition vdot (a b : Vec3) : Q := x a * x b + y a * y b + z a * z b.
Definition vcross (a b : Vec3) :=
  mkVec3 (y a * z b - z a * y b) (z a * x b - x a * z b) (x a * y b - y a * x b).
Definition vreject (a b : Vec3) := vsub a (vscale (vdot a b / vdot b b) b).

Definition Qsqrt (q : Q) : Q :=
  Qred (Z.sqrt (Qnum q * Zpos (Qden q) * 4 ^ 26) # (Qden q * 2 ^ 26)).
Definition vlength (a : Vec3) : Q := Qsqrt (vdot a a).
Definition vunit (a : Vec3) : Vec3 :=
  if Qltb 0 (vdot a a) then vdiv a (vlength a) else mkVec3 0 0 0.
Definition vreflection (v n : Vec3) := vsub v (vscale (2 * vdot v n) n).

Definition cadd (a b : Color) :=
  mkColor (red a + red b) (green a + green b) (blue a + blue b).
Definition cscale (k : Q) (a : Color) :=
  mkColor (k * red a) (k * green a) (k * blue a).
Definition cmul (a b : Color) :=
  mkColor (red a * red b) (green a * green b) (blue a * blue b).
Definition cdiv (a : Color) (k : Q) :=
  mkColor (red a / k) (green a / k) (blue a / k).

Definition is_emitter (m : Material) : bool :=
  negb (Qeq_bool (red (m_Emission m)) 0
        && Qeq_bool (green (m_Emission m)) 0
        && Qeq_bool (blue (m_Emission m)) 0).

Definition Qpow (base e : Q) : Q := Qpower base (Qfloor e).
Definition Qcos (a : Q) : Q := 1 - a * a / 2 + a * a * a * a / 24.
Definition Qsin (a : Q) : Q := a - a * a * a / 6 + a * a * a * a * a / 120.

Definition black_body : Material :=
  mkMaterial Color_zero Color_zero Color_zero 0.

(** The environment in which the [n]-th call of [rand(a, b)] returns
    the point of [[a, b]] at the fraction [draw n]. *)
Definition env (draw : nat -> Q) : Collaborators := {|
  Vec3_add := vadd;
  Vec3_sub := vsub;
  Vec3_neg := vneg;
  Vec3_scale := vscale;
  Vec3_div := vdiv;
  Vec3_dot := vdot;
  Vec3_cross := vcross;
  Vec3_reject := vreject;
  Length := vlength;
  Unit := vunit;
  Reflection := vreflection;
  Vec3_default := mkVec3 0 0 0;
  Color_add := cadd;
  Color_scale := cscale;
  Color_mul := cmul;
  Color_div := cdiv;
  Emitter := is_emitter;
  Material_default := black_body;
  sqrt := Qsqrt;
  cos := Qcos;
  sin := Qsin;
  pow := Qpow;
  Pi := 355 # 113;
  Epsilon := 1 # 1000000;
  Infinity := 100000000000000000000;
  rand_at := fun n a b => a + (b - a) * draw n |}.

(** A horizontal rectangle at height [h], centred at [(cx, cy)], of half
    width [half]; it is hit from either side, and its sample is its
    centre, with weight [weight]. *)
Definition rectangle_intersect (cx cy h half : Q) (ray : Ray) (geom : HitGeom)
    : bool * HitGeom :=
  if Qeq_bool (z (direction ray)) 0 then (false, geom)
  else
    let t := (h - z (origin ray)) / z (direction ray) in
    let p := vadd (origin ray) (vscale t (direction ray)) in
    if Qltb 0 t && Qltb t (distance geom)
       && Qle_bool (cx - half) (x p) && Qle_bool (x p) (cx + half)
       && Qle_bool (cy - half) (y p) && Qle_bool (y p) (cy + half)
    then (true,
          mkHitGeom p
            (mkVec3 0 0 (if Qltb 0 (z (direction ray)) then - (1) else 1))
            t (origin ray))
    else (false, geom).

Definition rectangle (m : Material) (cx cy h half weight : Q) : Object.t :=
  Object.mk m (rectangle_intersect cx cy h half)
    (fun _ _ n => (mkSample (mkVec3 cx cy h) weight, n)).

Definition white : Color := mkColor 1 1 1.
Definition grey (k : Q) : Color := mkColor k k k.

(** A lamp: white to look at, and emitting fifty times as much. *)
Definition lamp_material : Material :=
  mkMaterial white Color_zero (grey 50) 0.

(** A glossy floor: a fifth diffuse, a fifth specular, Phong exponent 1. *)
Definition floor_material : Material :=
  mkMaterial (grey (1 # 5)) (grey (1 # 5)) Color_zero 1.

Definition lamp1 : Object.t := rectangle lamp_material 3 0 4 (1 # 2) 1.
Definition lamp2 : Object.t := rectangle lamp_material (- (12)) 0 5 (1 # 2) 1.
Definition floor : Object.t := rectangle floor_material 0 0 0 100 1.

Definition room : Scene := mkScene [floor; lamp1; lamp2] Color_zero.

(** A ray straight up into the first lamp. *)
Definition ray_to_lamp : Ray := mkRay (mkVec3 3 0 1) (mkVec3 0 0 1) false.

(** A ray from [(-3, 0, 4)] down to the origin of the floor. *)
Definition ray_to_floor : Ray :=
  mkRay (mkVec3 (- (3)) 0 4) (mkVec3 (3 # 5) 0 (- (4 # 5))) false.

Definition start : Exec := mkExec 0 [].

Definition half_draws : nat -> Q := fun _ => 1 # 2.

(** A probe into the first lamp that suppresses emitters. *)
Definition probe_to_lamp : Ray := mkRay (mkVec3 3 0 1) (mkVec3 0 0 1) true.

(** A scene without lamps. *)
Definition dark_room : Scene := mkScene [floor] Color_zero.

(** A board between the origin of the floor and the first lamp. *)
Definition board : Object.t :=
  rectangle floor_material (3 # 2) 0 2 (1 # 2) 1.

Definition shaded_room : Scene := mkScene [floor; board; lamp1] Color_zero.

(** A room with a lamp over a floor that reflects nothing. *)
Definition soot_room : Scene :=
  mkScene [rectangle black_body 0 0 0 100 1; lamp1] Color_zero.

(** A hit on a surface that reflects nothing. *)
Definition black_hit (some_geom : HitGeom) : HitInfo :=
  mkHitInfo some_geom black_body.

(** A camera in front of an empty scene, and the renderer before its
    first line of two pixels. *)
Definition empty_world : World :=
  mkWorld (mkCamera (mkVec3 0 (- (5)) 2) (mkVec3 0 0 2) (mkVec3 0 0 1) 1)
          (mkScene [] Color_zero).

Definition first_line : Raytracer := mkRaytracer 2 2 0 [] false None.

(** The environment of the runs below: every draw is the midpoint of
    its range. *)
Definition world_env : Collaborators := env half_draws.

(** The renderer after its first line in front of the empty scene. *)
Definition second_line : Raytracer :=
  match fst (@cast_line world_env 0 first_line empty_world start) with
  | Some rt => rt
  | None => first_line
  end.

(** The run of [Shade] at the point where [ray_to_floor] meets the
    floor: the hit record, the viewing direction, the locals before the
    loop over the objects, after the floor and the first lamp, and after
    the second lamp as well. *)
Definition floor_hit : HitInfo :=
  snd (Cast ray_to_floor room (@fresh_hitinfo (env half_draws)) None).

Definition floor_view : Vec3 :=
  vunit (vsub (point (geom floor_hit)) (geom_origin (geom floor_hit))).

Definition before_lamps : DirectState :=
  mkDirectState
    (mkRay (vadd (point (geom floor_hit))
                 (vscale (1 # 1000000) (normal (geom floor_hit))))
           (mkVec3 0 0 0) false)
    Color_zero Color_zero Color_zero.

Definition after_lamp1 : option DirectState * Exec :=
  foldM (fun io => @direct_step (env half_draws) floor_hit room floor_view
                     (fst io) (snd io))
        [(0%nat, floor); (1%nat, lamp1)] before_lamps start.

Definition after_lamp2 : option DirectState * Exec :=
  @direct_lighting (env half_draws) floor_hit room floor_view
    before_lamps start.

(** The direction mirrored from the second lamp, as the body of the
    loop computes it. *)
Definition mirrored_lamp2 : Vec3 :=
  vreflection (vunit (vsub (mkVec3 (- (12)) 0 5) (point (geom floor_hit))))
              (normal (geom floor_hit)).

(** The shadow test of the second lamp, as the body of the loop runs it. *)
Definition lamp2_occluded : bool :=
  let to_light := vsub (mkVec3 (- (12)) 0 5) (point (geom floor_hit)) in
  fst (Cast (mkRay (origin (shadows before_lamps)) (vunit to_light) false)
            room
            (mkHitInfo
               (mkHitGeom (mkVec3 0 0 0) (mkVec3 0 0 0) (vlength to_light)
                          (mkVec3 0 0 0))
               black_body)
            (Some 2%nat)).

Definition red_of (f : DirectState -> Color) (run : option DirectState * Exec)
    : Q :=
  match fst run with
  | Some s => red (f s)
  | None => 0
  end.

End Demo.

(** ** The hemisphere sampler under other arithmetics

    The body of [SampleProjectedHemisphere] once more, with the arithmetic
    it runs on as a parameter: the scalar operations, the functions of
    [math.h], and the [Vec3] operations it calls.  The sampler of the
    integrator is this body on the operations of the collaborators; the
    same body on IEEE binary64 operations shows what rounding does to it. *)

Record Arithmetic (F V : Type) := mkArithmetic {
  a_zero : F;
  a_one : F;
  a_two : F;
  a_sub : F -> F -> F;
  a_mul : F -> F -> F;
  a_sqrt : F -> F;
  a_cos : F -> F;
  a_sin : F -> F;
  a_pow : F -> F -> F;
  a_positive : F -> bool;
  a_Pi : F;
  a_vec : F -> F -> F -> V;
  a_add : V -> V -> V;
  a_neg : V -> V;
  a_Unit : V -> V;
  a_Reflection : V -> V -> V }.

Arguments a_zero {F V}.
Arguments a_one {F V}.
Arguments a_two {F V}.
Arguments a_sub {F V}.
Arguments a_mul {F V}.
Arguments a_sqrt {F V}.
Arguments a_cos {F V}.
Arguments a_sin {F V}.
Arguments a_pow {F V}.
Arguments a_positive {F V}.
Arguments a_Pi {F V}.
Arguments a_vec {F V}.
Arguments a_add {F V}.
Arguments a_neg {F V}.
Arguments a_Unit {F V}.
Arguments a_Reflection {F V}.

(** The direction and the weight of the sample, for the normal [N] and the
    two draws. *)
Definition hemisphere_sample {F V} (A : Arithmetic F V) (N : V)
    (s_rand t_rand : F) : V * F :=
  let v := a_vec A (a_zero A) (a_zero A) (a_one A) in
  let aux_x :=
    a_mul A (a_sqrt A t_rand)
            (a_cos A (a_mul A (a_mul A (a_two A) (a_Pi A)) s_rand)) in
  let aux_y :=
    a_mul A (a_sqrt A t_rand)
            (a_sin A (a_mul A (a_mul A (a_two A) (a_Pi A)) s_rand)) in
  let aux_z :=
    a_sub A (a_sub A (a_one A) (a_pow A aux_x (a_two A)))
            (a_pow A aux_y (a_two A)) in
  let aux_z := if a_positive A aux_z then a_sqrt A aux_z else a_zero A in
  let aux := a_vec A aux_x aux_y aux_z in
  let aux_mig := a_Unit A (a_add A v N) in
  (a_Reflection A (a_neg A aux) aux_mig, a_Pi A).


Module Binary64.
Import Floats.
Local Open Scope float_scope.

Record FVec3 := mkFVec3 { fx : float; fy : float; fz : float }.

(** Modelled from the spec: the [Vec3] operators are componentwise, [*]
    between vectors is the dot product. *)
Definition FVec3_add (a b : FVec3) : FVec3 :=
  mkFVec3 (fx a + fx b) (fy a + fy b) (fz a + fz b).
Definition FVec3_sub (a b : FVec3) : FVec3 :=
  mkFVec3 (fx a - fx b) (fy a - fy b) (fz a - fz b).
Definition FVec3_neg (a : FVec3) : FVec3 :=
  mkFVec3 (- fx a) (- fy a) (- fz a).
Definition FVec3_scale (k : float) (a : FVec3) : FVec3 :=
  mkFVec3 (k * fx a) (k * fy a) (k * fz a).
Definition FVec3_div (a : FVec3) (k : float) : FVec3 :=
  mkFVec3 (fx a / k) (fy a / k) (fz a / k).
Definition FVec3_dot (a b : FVec3) : float :=
  fx a * fx b + fy a * fy b + fz a * fz b.

Definition FLength (a : FVec3) : float := PrimFloat.sqrt (FVec3_dot a a).

(** Modelled from the spec: [Unit] is the vector over its length, the
    quotient [SampleSpecularLobe] writes out as [(v + R) / Length(v + R)];
    a vector of length zero gives NaN components. *)
Definition FUnit (a : FVec3) : FVec3 := FVec3_div a (FLength a).

(** Modelled from the spec: [Reflection(V, N)] mirrors [V] in the plane of
    normal [N], [V - 2 (V . N) N]: this is how [Shade] uses it, to turn
    the viewing direction into the mirrored bounce. *)
Definition FReflection (v n : FVec3) : FVec3 :=
  FVec3_sub v (FVec3_scale (2 * FVec3_dot v n) n).

(** [cos], [sin] and [pow] of [math.h] where their values are exact and
    known: [cos(0) = 1], [sin(0) = 0], [pow(x, 2.0) = x * x] for [x] zero
    or one.  Elsewhere the library's rounding is not modelled, and the
    stand-in answers NaN. *)
Definition cos_at_zero (a : float) : float :=
  if PrimFloat.eqb a 0 then 1 else nan.
Definition sin_at_zero (a : float) : float :=
  if PrimFloat.eqb a 0 then 0 else nan.
Definition pow_of_bit (a e : float) : float :=
  if PrimFloat.eqb e 2 && (PrimFloat.eqb a 0 || PrimFloat.eqb a 1)
  then a * a else nan.

(** [Pi] as a [double]. *)
Definition FPi : float := 0x1.921fb54442d18p+1.

Definition arithmetic : Arithmetic float FVec3 :=
  mkArithmetic float FVec3 0 1 2 PrimFloat.sub PrimFloat.mul PrimFloat.sqrt
    cos_at_zero sin_at_zero pow_of_bit (fun a => PrimFloat.ltb 0 a) FPi
    mkFVec3 FVec3_add FVec3_neg FUnit FReflection.

(** [SampleProjectedHemisphere] in binary64, with the two draws as
    arguments. *)
Definition SampleProjectedHemisphere (N : FVec3) (s_rand t_rand : float)
    : FVec3 * float :=
  hemisphere_sample arithmetic N s_rand t_rand.

End Binary64.

(** ** Further notions

    The notions the second half of the properties is stated with. *)

Section Notions.
Context {collaborators : Collaborators}.

(** The whole contract the comment in [Cast] asks of an intersector: it
    answers true only when it has written a strictly smaller distance, and
    when it answers false it has not written into the record at all. *)
Definition honest (object : Object.t) : Prop :=
  forall ray geom,
    (fst (Object.Intersect object ray geom) = true ->
     distance (snd (Object.Intersect object ray geom)) < distance geom)
    /\ (fst (Object.Intersect object ray geom) = false ->
        snd (Object.Intersect object ray geom) = geom).

(** [contriD] and [contriS] of [Shade]. *)
Definition mean_diffuse (hit : HitInfo) : Q :=
  (blue (m_Diffuse (material hit)) + red (m_Diffuse (material hit))
   + green (m_Diffuse (material hit))) / 3.

Definition mean_specular (hit : HitInfo) : Q :=
  (blue (m_Specular (material hit)) + red (m_Specular (material hit))
   + green (m_Specular (material hit))) / 3.

(** [contriD + contriS] for a material. *)
Definition mean_reflectance (m : Material) : Q :=
  (blue (m_Diffuse m) + red (m_Diffuse m) + green (m_Diffuse m)) / 3
  + (blue (m_Specular m) + red (m_Specular m) + green (m_Specular m)) / 3.

(** The part of [Shade] that computes [indirect], for the extended depth
    [num_reb], the draw [u] and the values [contriD] and [contriS] that
    [u] is compared with. *)
Definition indirect_lighting (trace : Ray -> Scene -> Z -> M Color)
    (hit : HitInfo) (scene : Scene) (V : Vec3) (num_reb : Z)
    (contriD contriS u : Q) : M Color :=
  let N := normal (geom hit) in
  if Qltb u (contriD + contriS) then
    S1 <- SampleProjectedHemisphere N ;;
    let rayo :=
      mkRay (Vec3_add (point (geom hit)) (Vec3_scale Epsilon N))
            (P S1) false in
    indirect_diff <-
      (if Qltb u contriD then
         traced <- trace rayo scene num_reb ;;
         ret (Color_mul
                (Color_div (Color_scale (w S1) (m_Diffuse (material hit))) Pi)
                traced)
       else ret Color_zero) ;;
    indirect_spec <-
      indirect_specular trace SampleSpecularLobe hit scene V num_reb
        contriD contriS u ;;
    ret (Color_add indirect_diff indirect_spec)
  else ret Color_zero.

(** The shadow test of the body of the direct lighting loop, for the
    object at [idx], the locals [s] and the position [n] in the draws:
    the answer of [Cast(shadows, scene, vacio, object)]. *)
Definition shadow_test (hit : HitInfo) (scene : Scene) (idx : nat)
    (object : Object.t) (s : DirectState) (n : nat) : bool :=
  let S := fst (Object.GetSample object (point (geom hit))
                  (normal (geom hit)) n) in
  let to_light := Vec3_sub (P S) (point (geom hit)) in
  fst (Cast (mkRay (origin (shadows s)) (Unit to_light)
                   (no_emitters (shadows s)))
            scene
            (mkHitInfo
               (mkHitGeom Vec3_default Vec3_default (Length to_light)
                          Vec3_default)
               Material_default)
            (Some idx)).

(** A computation that leaves the list of events alone. *)
Definition silent {A} (m : M A) : Prop :=
  forall st, calls (snd (m st)) = calls st.

(** A computation that adds only events satisfying [E] to a run of such
    events, and whose result, when it has one, satisfies [Post]. *)
Definition holds (E : Event -> Prop) {A} (Post : A -> Prop) (m : M A) : Prop :=
  forall st, Forall E (calls st) ->
             Forall E (calls (snd (m st)))
             /\ (forall a, fst (m st) = Some a -> Post a).

(** An event of a run in which [Trace] is never asked for a depth below
    the one [cast_line] starts from. *)
Definition deep (e : Event) : Prop :=
  match e with
  | TraceCall _ max_tree_depth => (tree_depth <= max_tree_depth)%Z
  | EmitterSuppressed => True
  end.

(** A function to trace rays that keeps a run deep when it is asked for a
    depth between [lo] and [hi]. *)
Definition deep_tracer (lo hi : Z) (trace : Ray -> Scene -> Z -> M Color)
    : Prop :=
  forall ray scene k, (lo <= k <= hi)%Z ->
                      holds deep (fun _ => True) (trace ray scene k).

End Notions.

(** * Properties *)

(** ** Machine integers *)

Lemma wrap_int_id v : (int_min <= v <= int_max)%Z -> wrap_int v = v.
Proof.
  unfold int_min, int_max, wrap_int. intros Hv.
  rewrite Z.mod_small; lia.
Qed.

Lemma wrap_int_range v : (int_min <= wrap_int v <= int_max)%Z.
Proof.
  unfold int_min, int_max, wrap_int.
  pose proof (Z.mod_pos_bound (v + 2 ^ 31) (2 ^ 32) ltac:(lia)). lia.
Qed.

Lemma channel_of_int_range v : (0 <= channel_of_int v <= 255)%Z.
Proof.
  unfold channel_of_int.
  pose proof (Z.mod_pos_bound v 256 ltac:(lia)). lia.
Qed.

(** ** ToneMap *)

Lemma ToneMap_by_channel color :
  ToneMap color =
  mkPixel (tone_channel (red color)) (tone_channel (green color))
          (tone_channel (blue color)).
Proof. reflexivity. Qed.

Lemma Qfloor_lt_const (q : Q) (k : Z) : q < inject_Z k -> (Qfloor q < k)%Z.
Proof.
  intros H. rewrite Zlt_Qlt.
  eapply Qle_lt_trans; [apply Qfloor_le | exact H].
Qed.

Lemma Qfloor_ge_const (q : Q) (k : Z) : inject_Z k <= q -> (k <= Qfloor q)%Z.
Proof.
  intros H. rewrite <- (Qfloor_Z k). apply Qfloor_resp_le. exact H.
Qed.

Lemma tone_channel_spec c : fits_int c -> tone_spec c (tone_channel c).
Proof.
  intros Hfit. unfold tone_spec, tone_channel, int_of_floor.
  rewrite (wrap_int_id _ Hfit).
  split; [apply channel_of_int_range|].
  split; [|split].
  - intros Hc.
    assert (Hf : (255 <= Qfloor (256 * c))%Z).
    { apply Qfloor_ge_const. change (inject_Z 255) with 255. lra. }
    apply Z.leb_le in Hf. rewrite Hf. reflexivity.
  - intros H0 Hc.
    assert (Hhi : (Qfloor (256 * c) < 255)%Z).
    { apply Qfloor_lt_const. change (inject_Z 255) with 255. lra. }
    assert (Hlo : (0 <= Qfloor (256 * c))%Z).
    { apply Qfloor_ge_const. change (inject_Z 0) with 0. lra. }
    destruct (Z.leb_spec 255 (Qfloor (256 * c))); [lia|].
    unfold channel_of_int. apply Z.mod_small. lia.
  - intros Hc.
    assert (Hhi : (Qfloor (256 * c) < 0)%Z).
    { apply Qfloor_lt_const. change (inject_Z 0) with 0. lra. }
    destruct (Z.leb_spec 255 (Qfloor (256 * c))); [lia|].
    reflexivity.
Qed.

(** Every channel of every pixel is a byte. *)
Lemma ToneMap_bytes color :
  (0 <= r (ToneMap color) <= 255)%Z
  /\ (0 <= g (ToneMap color) <= 255)%Z
  /\ (0 <= b (ToneMap color) <= 255)%Z.
Proof. repeat split; apply channel_of_int_range. Qed.

(** C4, as the code has it.  For every colour whose scaled channels fit an
    [int], each channel of [ToneMap] is a byte in [0, 255]; a channel value
    of 255/256 (about 0.996) or more gives 255; a value in [0, 255/256)
    gives the floor of 256 times the value; a negative value is not made 0:
    the negative floor is reduced modulo 256 by the conversion to an
    unsigned byte. *)
Theorem ToneMap_channels (color : Color) :
  fits_int (red color) -> fits_int (green color) -> fits_int (blue color) ->
  tone_spec (red color) (r (ToneMap color))
  /\ tone_spec (green color) (g (ToneMap color))
  /\ tone_spec (blue color) (b (ToneMap color)).
Proof.
  intros Hr Hg Hb. rewrite ToneMap_by_channel. cbn [r g b].
  repeat split; apply tone_channel_spec; assumption.
Qed.

Lemma ToneMap_channels_witness :
  let color := mkColor (3 # 4) (2 # 1) (- (1 # 2)) in
  (fits_int (red color) /\ fits_int (green color) /\ fits_int (blue color))
  /\ tone_spec (red color) (r (ToneMap color))
  /\ tone_spec (green color) (g (ToneMap color))
  /\ tone_spec (blue color) (b (ToneMap color)).
Proof.
  intros color.
  assert (Hr : fits_int (red color)) by (vm_compute; split; discriminate).
  assert (Hg : fits_int (green color)) by (vm_compute; split; discriminate).
  assert (Hb : fits_int (blue color)) by (vm_compute; split; discriminate).
  split; [exact (conj Hr (conj Hg Hb))|].
  exact (ToneMap_channels color Hr Hg Hb).
Defined.

(** C4, as the specification words it, fails: a negative channel value is
    not treated as 0.  The red value -1/2 comes out as 128. *)
Lemma ToneMap_negative_is_not_zero :
  ~ (forall color : Color, red color < 0 -> r (ToneMap color) = 0%Z).
Proof.
  intros H.
  specialize (H (mkColor (- (1 # 2)) 0 0) ltac:(reflexivity)).
  vm_compute in H. discriminate H.
Qed.

Example ToneMap_half_negative :
  ToneMap (mkColor (- (1 # 2)) 0 0) = mkPixel 128 0 0.
Proof. reflexivity. Qed.

(** ** Cast *)

Section CastProperties.

Lemma last_cons_default {A} (l : list A) : forall a d,
  last (a :: l) d = last l a.
Proof.
  induction l as [|h t IH]; intros a d; [reflexivity|].
  change (last (a :: h :: t) d) with (last (h :: t) d).
  rewrite !IH. reflexivity.
Qed.

Lemma Cast_from_visits idx objs ray ignore hit hitinfo :
  Cast_from idx objs ray ignore (hit, hitinfo) =
  (hit || existsb material_written (Cast_visits idx objs ray ignore hitinfo),
   last (map after (Cast_visits idx objs ray ignore hitinfo)) hitinfo).
Proof.
  revert idx hit hitinfo.
  induction objs as [|object rest IH]; intros idx hit hitinfo.
  - cbn. rewrite orb_false_r. reflexivity.
  - cbn [Cast_from Cast_visits].
    set (v := Cast_visit ray ignore idx object hitinfo).
    assert (Hstep : Cast_step ray ignore idx object (hit, hitinfo) =
                    (hit || material_written v, after v)).
    { unfold v, Cast_visit, Cast_step. cbn.
      destruct (negb (is_ignored idx ignore)); cbn.
      - destruct (Object.Intersect object ray (geom hitinfo)) as [[|] geom'];
          cbn; rewrite ?orb_true_r, ?orb_false_r; reflexivity.
      - rewrite orb_false_r. reflexivity. }
    rewrite Hstep, IH. cbn [existsb map].
    rewrite orb_assoc, last_cons_default. reflexivity.
Qed.

Lemma Cast_visit_lockstep ray ignore idx object hitinfo :
  closer_or_false object ->
  lockstep (Cast_visit ray ignore idx object hitinfo).
Proof.
  intros Hc. unfold lockstep, Cast_visit, Cast_step. cbn.
  specialize (Hc ray (geom hitinfo)).
  destruct (negb (is_ignored idx ignore)); cbn.
  - destruct (Object.Intersect object ray (geom hitinfo)) as [[|] geom'];
      cbn in *; split; intros E; try discriminate; auto.
  - split; [discriminate | reflexivity].
Qed.

Lemma Cast_visits_lockstep objs : forall idx ray ignore hitinfo,
  Forall closer_or_false objs ->
  Forall lockstep (Cast_visits idx objs ray ignore hitinfo).
Proof.
  induction objs as [|object rest IH]; intros idx ray ignore hitinfo Hall.
  - constructor.
  - inversion Hall as [|? ? Hobj Hrest]; subst.
    cbn [Cast_visits]. constructor.
    + apply Cast_visit_lockstep; assumption.
    + apply IH; assumption.
Qed.

(** C7.  When every intersector of the scene keeps its contract, each
    assignment of the material in a call of [Cast] comes with a strict
    decrease of the distance of the record, and where the material is not
    assigned it is left as it was; the record [Cast] returns is the one
    after the last visit, its answer says whether the material was ever
    assigned; and with no objects [Cast] answers false and returns the
    record untouched. *)
Theorem Cast_material_lockstep (ray : Ray) (scene : Scene)
    (hitinfo : HitInfo) (ignore : option nat) :
  Forall closer_or_false (objects scene) ->
  let visits := Cast_visits 0 (objects scene) ray ignore hitinfo in
  Forall lockstep visits
  /\ Cast ray scene hitinfo ignore =
     (existsb material_written visits, last (map after visits) hitinfo)
  /\ (objects scene = [] -> Cast ray scene hitinfo ignore = (false, hitinfo)).
Proof.
  intros Hall visits. split; [|split].
  - apply Cast_visits_lockstep; assumption.
  - unfold Cast. rewrite Cast_from_visits. reflexivity.
  - intros E. unfold Cast. rewrite E. reflexivity.
Qed.

End CastProperties.

(** ** The Russian roulette *)

Section RouletteProperties.
Context {collaborators : Collaborators}.

Lemma Qltb_true a b : Qltb a b = true <-> a < b.
Proof.
  unfold Qltb. rewrite negb_true_iff. split.
  - intros E. apply Qnot_le_lt. intros H.
    apply Qle_bool_iff in H. congruence.
  - intros H. destruct (Qle_bool b a) eqn:E; [|reflexivity].
    apply Qle_bool_iff in E. exfalso. exact (Qlt_not_le _ _ H E).
Qed.

Lemma Qltb_false a b : Qltb a b = false <-> b <= a.
Proof.
  unfold Qltb. rewrite negb_false_iff. apply Qle_bool_iff.
Qed.

(** One turn of the [while]: the test, the draw, and the two branches of
    the body. *)
Lemma roulette_loop_step posi num_reb iters n :
  roulette_loop posi num_reb iters n =
  if Qle_bool 0 posi then
    if Qltb posi (rand_at n 0 99)
    then roulette_loop (-1) num_reb (S iters) (S n)
    else roulette_loop (posi - 15) (wrap_int (num_reb + 1)) (S iters) (S n)
  else (num_reb, iters, n).
Proof.
  rewrite roulette_loop_equation_1.
  destruct (Qlt_le_dec posi 0) as [Hneg | Hpos]; cbn.
  - destruct (Qle_bool 0 posi) eqn:E; [|reflexivity].
    apply Qle_bool_iff in E. exfalso. exact (Qlt_not_le _ _ Hneg E).
  - rewrite (proj2 (Qle_bool_iff 0 posi) Hpos).
    destruct (Qlt_le_dec posi (rand_at n 0 99)) as [Hgt | Hle]; cbn.
    + apply Qltb_true in Hgt. rewrite Hgt. reflexivity.
    + apply Qltb_false in Hle. rewrite Hle. reflexivity.
Qed.

(** Unfold one turn and decide the loop test, which is between
    numerals. *)
Ltac roulette_turn :=
  rewrite roulette_loop_step;
  match goal with
  | |- context [Qle_bool 0 ?p] =>
      let v := eval vm_compute in (Qle_bool 0 p) in
      change (Qle_bool 0 p) with v
  end;
  cbv iota.

(** The increments of [num_reb] stay inside [int]. *)
Ltac settle_wrap v :=
  try rewrite (wrap_int_id v) by (unfold int_min, int_max in *; lia).

Ltac settle_wraps d :=
  settle_wrap (d + 1)%Z;
  settle_wrap (d + 1 + 1)%Z;
  settle_wrap (d + 1 + 1 + 1)%Z;
  settle_wrap (d + 1 + 1 + 1 + 1)%Z;
  settle_wrap (d + 1 + 1 + 1 + 1 + 1)%Z;
  settle_wrap (d + 1 + 1 + 1 + 1 + 1 + 1)%Z;
  settle_wrap (d + 1 + 1 + 1 + 1 + 1 + 1 + 1)%Z.

(** Whatever is drawn, the loop is over after at most seven turns. *)
Lemma roulette_loop_turns d n :
  exists num_reb iters n',
    roulette_loop 100 d 0 n = (num_reb, iters, n') /\ (iters <= 7)%nat.
Proof.
  do 7 (roulette_turn;
        match goal with
        | |- context [Qltb ?p ?a] => destruct (Qltb p a)
        end;
        [roulette_turn; do 3 eexists; split; [reflexivity | lia] |]).
  roulette_turn. do 3 eexists; split; [reflexivity | lia].
Qed.

(** C5.  For every input depth that leaves room for the increments in an
    [int], and whatever the draws are, the loop of the Russian roulette
    ends, after at most seven turns, and the depth [num_reb] it leaves is
    not below the input depth; [roulette], which [Shade] runs, returns
    that depth. *)
Theorem roulette_terminates (d : Z) (st : Exec) :
  (int_min <= d <= int_max - 7)%Z ->
  exists num_reb iters n',
    roulette_loop 100 d 0 (draws st) = (num_reb, iters, n')
    /\ (iters <= 7)%nat
    /\ (d <= num_reb)%Z
    /\ roulette d st = (Some num_reb, mkExec n' (calls st)).
Proof.
  intros Hd. unfold roulette, with_rng.
  do 7 (roulette_turn;
        match goal with
        | |- context [Qltb ?p ?a] => destruct (Qltb p a)
        end;
        [roulette_turn; do 3 eexists;
         repeat split; try reflexivity; try lia; settle_wraps d; lia |]).
  roulette_turn. do 3 eexists.
  repeat split; try reflexivity; try lia; settle_wraps d; lia.
Qed.

(** C9.  When every draw of [rand(0, 99)] lies in [0, 99], and the depth
    leaves room for the increments in an [int]: the loop ends within 8
    turns, the first turn takes the extending branch, and the depth it
    leaves lies between [d + 1] and [d + 7]. *)
Theorem roulette_bounds (d : Z) (n : nat) :
  (forall k, 0 <= rand_at k 0 99 <= 99) ->
  (int_min <= d <= int_max - 7)%Z ->
  exists num_reb iters n',
    roulette_loop 100 d 0 n = (num_reb, iters, n')
    /\ (iters <= 8)%nat
    /\ roulette_loop 100 d 0 n = roulette_loop (100 - 15) (d + 1) 1 (S n)
    /\ (d + 1 <= num_reb <= d + 7)%Z.
Proof.
  intros Hdraw Hd.
  assert (Hfirst : roulette_loop 100 d 0 n
                   = roulette_loop (100 - 15) (d + 1) 1 (S n)).
  { roulette_turn.
    assert (E : Qltb 100 (rand_at n 0 99) = false).
    { apply Qltb_false. destruct (Hdraw n) as [_ Hhi].
      eapply Qle_trans; [exact Hhi | discriminate]. }
    rewrite E. rewrite wrap_int_id; [reflexivity|].
    unfold int_min, int_max in *. lia. }
  rewrite Hfirst.
  do 6 (roulette_turn;
        match goal with
        | |- context [Qltb ?p ?a] => destruct (Qltb p a)
        end;
        [roulette_turn; do 3 eexists;
         repeat split; try reflexivity; try lia; settle_wraps d; lia |]).
  roulette_turn. do 3 eexists.
  repeat split; try reflexivity; try lia; settle_wraps d; lia.
Qed.

End RouletteProperties.

(** ** Trace and Shade *)

Section TraceProperties.
Context {collaborators : Collaborators}.

Lemma Trace_unfold fuel ray scene max_tree_depth :
  Trace fuel ray scene max_tree_depth =
  Trace_with (Shade fuel) ray scene max_tree_depth.
Proof. destruct fuel; reflexivity. Qed.

(** C2.  Whenever [Cast] reports no hit, or the depth is negative,
    [Trace] returns the background colour of the scene; a negative depth
    does so whatever the ray hits. *)
Theorem Trace_background (fuel : nat) (ray : Ray) (scene : Scene)
    (max_tree_depth : Z) (st : Exec) :
  fst (Cast ray scene fresh_hitinfo None) = false \/ (max_tree_depth < 0)%Z ->
  fst (Trace fuel ray scene max_tree_depth st) = Some (bgcolor scene).
Proof.
  intros H. rewrite Trace_unfold. unfold Trace_with, bind, record.
  destruct (Cast ray scene fresh_hitinfo None) as [hit hitinfo].
  cbn in H |- *.
  destruct H as [H | H].
  - subst hit. reflexivity.
  - assert (E : (-1 <? max_tree_depth)%Z = false) by (apply Z.ltb_ge; lia).
    rewrite E, andb_false_r. reflexivity.
Qed.

(** C1, as the code has it.  For a ray that does not suppress emitters
    and a depth that is not negative, when the closest hit is an emitter
    [Trace] returns the diffuse colour [m_Diffuse] of that material. *)
Theorem Trace_emitter_returns_diffuse (fuel : nat) (ray : Ray)
    (scene : Scene) (max_tree_depth : Z) (st : Exec) (hitinfo : HitInfo) :
  no_emitters ray = false ->
  (0 <= max_tree_depth)%Z ->
  Cast ray scene fresh_hitinfo None = (true, hitinfo) ->
  Emitter (material hitinfo) = true ->
  fst (Trace fuel ray scene max_tree_depth st)
  = Some (m_Diffuse (material hitinfo)).
Proof.
  intros Hray Hdepth Hcast Hemit.
  rewrite Trace_unfold. unfold Trace_with, bind, record. cbn.
  rewrite Hcast, Hray, andb_false_r.
  assert (E : (-1 <? max_tree_depth)%Z = true) by (apply Z.ltb_lt; lia).
  rewrite E. cbn.
  unfold Shade, Shade_with. rewrite Hemit. reflexivity.
Qed.

(** C8.  When the Phong exponent of the material hit is not positive,
    the specular half of the indirect estimate is the constant zero
    colour, whatever the draw [u] is: it leaves the execution state as it
    found it, and it is so for every lobe sampler and every function
    that traces the bounce, so neither is run. *)
Theorem Shade_no_specular_bounce (trace : Ray -> Scene -> Z -> M Color)
    (lobe : Vec3 -> Q -> M Sample) (hit : HitInfo) (scene : Scene)
    (V : Vec3) (num_reb : Z) (contriD contriS u : Q) (st : Exec) :
  m_Phong_exp (material hit) <= 0 ->
  indirect_specular trace lobe hit scene V num_reb contriD contriS u st
  = (Some Color_zero, st).
Proof.
  intros Hphong. unfold indirect_specular.
  apply Qltb_false in Hphong. rewrite Hphong. reflexivity.
Qed.

(** *** The direct lighting loop *)

(** For an emitter that is not occluded and whose mirrored direction does
    not face the viewer, the body of the loop leaves [specular] as the
    previous objects left it. *)
Lemma direct_step_keeps_specular hit scene V idx object s st :
  Emitter (Object.material object) = true ->
  let S := fst (Object.GetSample object (point (geom hit))
                  (normal (geom hit)) (draws st)) in
  let to_light := Vec3_sub (P S) (point (geom hit)) in
  Vec3_dot (Reflection (Unit to_light) (normal (geom hit))) V <= 0 ->
  exists s', fst (direct_step hit scene V idx object s st) = Some s'
             /\ specular s' = specular s.
Proof.
  intros Hemit S to_light HRV.
  unfold direct_step, bind, with_rng. rewrite Hemit. cbn [andb].
  subst S to_light.
  destruct (Object.GetSample object (point (geom hit)) (normal (geom hit))
              (draws st)) as [S n'].
  cbn [fst] in HRV.
  match goal with
  | |- context [if fst (Cast ?r ?sc ?h ?i) then _ else _] =>
      destruct (fst (Cast r sc h i))
  end.
  - eexists. split; reflexivity.
  - apply Qltb_false in HRV. rewrite HRV. cbn [andb].
    eexists. split; reflexivity.
Qed.

(** With a Phong exponent that is not positive, [specular] stays the
    zero colour through the whole loop. *)
Lemma direct_step_no_specular hit scene V idx object s st :
  m_Phong_exp (material hit) <= 0 ->
  specular s = Color_zero ->
  exists s', fst (direct_step hit scene V idx object s st) = Some s'
             /\ specular s' = Color_zero.
Proof.
  intros Hphong Hzero. apply Qltb_false in Hphong.
  unfold direct_step, bind, with_rng.
  destruct (Emitter (Object.material object) && true); [|eexists; split; [reflexivity | exact Hzero]].
  destruct (Object.GetSample object (point (geom hit)) (normal (geom hit))
              (draws st)) as [S n'].
  match goal with
  | |- context [if fst (Cast ?r ?sc ?h ?i) then _ else _] =>
      destruct (fst (Cast r sc h i))
  end.
  - eexists. split; [reflexivity | exact Hzero].
  - rewrite Hphong, andb_false_r.
    eexists. split; [reflexivity | exact Hzero].
Qed.

End TraceProperties.

(** ** No ray suppresses emitters *)

Section Suppression.
Context {collaborators : Collaborators}.

Lemma keeps_ret {A} (Post : A -> Prop) (a : A) : Post a -> keeps Post (ret a).
Proof.
  intros Ha st Hst. split; [exact Hst|].
  intros a' E. cbn in E. injection E as <-. exact Ha.
Qed.

Lemma keeps_bind {A B} (Mid : A -> Prop) (Post : B -> Prop)
    (m : M A) (k : A -> M B) :
  keeps Mid m -> (forall a, Mid a -> keeps Post (k a)) -> keeps Post (bind m k).
Proof.
  intros Hm Hk st Hst. unfold bind.
  destruct (Hm st Hst) as [Hcalls Hres].
  destruct (m st) as [[a|] st']; cbn in *.
  - apply (Hk a (Hres a eq_refl) st' Hcalls).
  - split; [exact Hcalls | discriminate].
Qed.

Lemma keeps_weaken {A} (Pre Post : A -> Prop) (m : M A) :
  (forall a, Pre a -> Post a) -> keeps Pre m -> keeps Post m.
Proof.
  intros Himp Hm st Hst. destruct (Hm st Hst) as [Hcalls Hres].
  split; [exact Hcalls | intros a E; apply Himp, Hres, E].
Qed.

Lemma quiet_bind {A B} (m : M A) (k : A -> M B) :
  quiet m -> (forall a, quiet (k a)) -> quiet (bind m k).
Proof. intros Hm Hk. eapply keeps_bind; [exact Hm | intros a _; apply Hk]. Qed.

Lemma quiet_ret {A} (a : A) : quiet (ret a).
Proof. apply keeps_ret. exact Logic.I. Qed.

Lemma quiet_of_keeps {A} (Post : A -> Prop) (m : M A) : keeps Post m -> quiet m.
Proof. apply keeps_weaken. intros; exact Logic.I. Qed.

Lemma quiet_out_of_fuel {A} : quiet (@out_of_fuel A).
Proof. intros st Hst. split; [exact Hst | discriminate]. Qed.

Lemma quiet_with_rng {A} (f : nat -> A * nat) : quiet (with_rng f).
Proof.
  intros st Hst. unfold with_rng. destruct (f (draws st)) as [a n].
  split; [exact Hst | intros; exact Logic.I].
Qed.

Lemma quiet_record_call ray d :
  no_emitters ray = false -> quiet (record (TraceCall ray d)).
Proof.
  intros Hray st Hst. split; [|intros; exact Logic.I].
  cbn. constructor; assumption.
Qed.

Lemma keeps_foldM {A S} (Inv : S -> Prop) (body : A -> S -> M S) (l : list A) :
  (forall a s, Inv s -> keeps Inv (body a s)) ->
  forall s, Inv s -> keeps Inv (foldM body l s).
Proof.
  intros Hbody. induction l as [|a l IH]; intros s Hs; cbn [foldM].
  - apply keeps_ret, Hs.
  - eapply keeps_bind; [apply Hbody, Hs | intros s' Hs'; apply IH, Hs'].
Qed.

Lemma quiet_foldM {A S} (body : A -> S -> M S) (l : list A) (s : S) :
  (forall a s, quiet (body a s)) -> quiet (foldM body l s).
Proof.
  intros Hbody. apply (keeps_foldM (fun _ => True)); [|exact Logic.I].
  intros a s' _. apply Hbody.
Qed.

Lemma quiet_rand a b : quiet (rand a b).
Proof. apply quiet_with_rng. Qed.

Lemma quiet_roulette d : quiet (roulette d).
Proof. apply quiet_with_rng. Qed.

Lemma quiet_SampleProjectedHemisphere N : quiet (SampleProjectedHemisphere N).
Proof.
  unfold SampleProjectedHemisphere.
  repeat (apply quiet_bind; [apply quiet_rand | intros ?]).
  apply quiet_ret.
Qed.

Lemma quiet_SampleSpecularLobe R phong_exp :
  quiet (SampleSpecularLobe R phong_exp).
Proof.
  unfold SampleSpecularLobe.
  repeat (apply quiet_bind; [apply quiet_rand | intros ?]).
  apply quiet_ret.
Qed.

Lemma quiet_direct_step hit scene V idx object s :
  quiet (direct_step hit scene V idx object s).
Proof.
  unfold direct_step.
  destruct (Emitter (Object.material object) && true); [|apply quiet_ret].
  apply quiet_bind; [apply quiet_with_rng | intros S].
  match goal with
  | |- context [if ?c then _ else _] => destruct c
  end; apply quiet_ret.
Qed.

Lemma quiet_direct_lighting hit scene V s :
  quiet (direct_lighting hit scene V s).
Proof. apply quiet_foldM. intros io s'. apply quiet_direct_step. Qed.

Lemma quiet_indirect_specular trace hit scene V num_reb contriD contriS u :
  quiet_tracer trace ->
  quiet (indirect_specular trace SampleSpecularLobe hit scene V num_reb
           contriD contriS u).
Proof.
  intros Htrace. unfold indirect_specular.
  match goal with
  | |- context [if ?c then _ else _] => destruct c
  end; [|apply quiet_ret].
  apply quiet_bind; [apply quiet_SampleSpecularLobe | intros S2].
  apply quiet_bind; [apply Htrace; reflexivity | intros traced].
  apply quiet_ret.
Qed.

Lemma quiet_Shade_with trace hit scene d :
  quiet_tracer trace -> quiet (Shade_with trace hit scene d).
Proof.
  intros Htrace. unfold Shade_with.
  destruct (Emitter (material hit)); [apply quiet_ret|].
  apply quiet_bind; [apply quiet_roulette | intros num_reb].
  apply quiet_bind; [apply quiet_rand | intros u].
  apply quiet_bind; [apply quiet_direct_lighting | intros lit].
  apply quiet_bind; [|intros indirect; apply quiet_ret].
  match goal with
  | |- context [if Qltb u ?c then _ else _] => destruct (Qltb u c)
  end; [|apply quiet_ret].
  apply quiet_bind; [apply quiet_SampleProjectedHemisphere | intros S1].
  apply quiet_bind.
  - match goal with
    | |- context [if ?c then _ else _] => destruct c
    end; [|apply quiet_ret].
    apply quiet_bind; [apply Htrace; reflexivity | intros traced].
    apply quiet_ret.
  - intros indirect_diff.
    apply quiet_bind; [apply quiet_indirect_specular, Htrace | intros ?].
    apply quiet_ret.
Qed.

Lemma quiet_Trace_with shade ray scene d :
  (forall hit scene d, quiet (shade hit scene d)) ->
  no_emitters ray = false ->
  quiet (Trace_with shade ray scene d).
Proof.
  intros Hshade Hray. unfold Trace_with.
  apply quiet_bind; [apply quiet_record_call, Hray | intros _].
  destruct (Cast ray scene fresh_hitinfo None) as [hit hitinfo].
  destruct (hit && (-1 <? d)%Z); [|apply quiet_ret].
  rewrite Hray, andb_false_r. apply Hshade.
Qed.

Lemma quiet_Trace fuel : quiet_tracer (Trace fuel).
Proof.
  induction fuel as [|fuel IH]; intros ray scene d Hray;
    rewrite Trace_unfold; apply quiet_Trace_with; try exact Hray;
    intros hit scene' d'; apply quiet_Shade_with.
  - intros r s k _. apply quiet_out_of_fuel.
  - exact IH.
Qed.

Lemma quiet_Shade fuel hit scene d : quiet (Shade fuel hit scene d).
Proof.
  apply quiet_Shade_with. destruct fuel.
  - intros r s k _. apply quiet_out_of_fuel.
  - apply quiet_Trace.
Qed.

Lemma keeps_cast_pixel fuel rt world O dR dU i s :
  primary s -> keeps primary (cast_pixel fuel rt world O dR dU i s).
Proof.
  intros Hs. unfold cast_pixel.
  eapply keeps_bind with (Mid := primary).
  - destruct (rays_pixel =? 1)%Z.
    + eapply keeps_bind with (Mid := fun _ => True).
      * apply quiet_Trace. exact Hs.
      * intros traced _. apply keeps_ret. exact Hs.
    + apply keeps_foldM; [|exact Hs].
      intros _ s0 Hs0.
      eapply keeps_bind with (Mid := fun _ => True); [apply quiet_rand|].
      intros a _.
      eapply keeps_bind with (Mid := fun _ => True); [apply quiet_rand|].
      intros b _.
      eapply keeps_bind with (Mid := fun _ => True).
      * apply quiet_Trace. exact Hs0.
      * intros traced _. apply keeps_ret. exact Hs0.
  - intros s' Hs'. apply keeps_ret. exact Hs'.
Qed.

(** C10.  In a run in which so far every ray handed to [Trace] had
    [no_emitters = false] and no emitter was blanked, a call of
    [cast_line] hands to [Trace], from [cast_line] itself and from every
    [Shade] below it, only rays with [no_emitters = false], and the
    branch of [Trace] that blanks an emitter is never taken; this holds
    at every recursion budget, so for every prefix of every run. *)
Theorem cast_line_never_suppresses (fuel : nat) (rt : Raytracer)
    (world : World) (st : Exec) :
  Forall unsuppressed (calls st) ->
  Forall unsuppressed (calls (snd (cast_line fuel rt world st))).
Proof.
  intros Hst.
  assert (H : quiet (cast_line fuel rt world)).
  { unfold cast_line.
    eapply keeps_bind with (Mid := primary).
    - apply keeps_foldM; [|reflexivity].
      intros i s Hs. apply keeps_cast_pixel, Hs.
    - intros s _. destruct (_ =? _)%Z; apply quiet_ret. }
  exact (proj1 (H st Hst)).
Qed.

End Suppression.

(** ** Runs on a concrete scene *)

Section Runs.
Import Demo.

Lemma rectangle_closer m cx cy h half weight :
  closer_or_false (rectangle m cx cy h half weight).
Proof.
  intros ray geom. unfold rectangle, rectangle_intersect. cbn.
  destruct (Qeq_bool (z (direction ray)) 0); cbn; [discriminate|].
  match goal with
  | |- context [if ?c then _ else _] => destruct c eqn:E
  end; cbn; [|discriminate].
  intros _.
  repeat (apply andb_true_iff in E; destruct E as [E ?]).
  match goal with
  | H : Qltb _ (distance geom) = true |- _ => apply Qltb_true in H; exact H
  end.
Qed.

Lemma room_closer : Forall closer_or_false (objects room).
Proof. repeat constructor; apply rectangle_closer. Qed.

Lemma Cast_material_lockstep_witness :
  Forall closer_or_false (objects room)
  /\ (let visits :=
        Cast_visits 0 (objects room) ray_to_floor None
          (@fresh_hitinfo world_env) in
      Forall lockstep visits
      /\ Cast ray_to_floor room (@fresh_hitinfo world_env) None =
         (existsb material_written visits,
          last (map after visits) (@fresh_hitinfo world_env))
      /\ (objects room = [] ->
          Cast ray_to_floor room (@fresh_hitinfo world_env) None =
          (false, @fresh_hitinfo world_env))).
Proof.
  split; [exact room_closer|].
  exact (Cast_material_lockstep ray_to_floor room (@fresh_hitinfo world_env)
           None room_closer).
Defined.

(** C1, as the specification words it, fails: the ray into the first
    lamp meets an emitter whose emission is fifty times its diffuse
    colour, and [Trace] returns the diffuse colour. *)
Lemma Trace_emitter_is_not_emission :
  ~ (forall (collaborators : Collaborators) (fuel : nat) (ray : Ray)
            (scene : Scene) (max_tree_depth : Z) (st : Exec)
            (hitinfo : HitInfo),
        no_emitters ray = false ->
        Cast ray scene fresh_hitinfo None = (true, hitinfo) ->
        Emitter (material hitinfo) = true ->
        fst (Trace fuel ray scene max_tree_depth st)
        = Some (m_Emission (material hitinfo))).
Proof.
  intros H.
  specialize (H world_env 0%nat ray_to_lamp room 1%Z start
                (snd (Cast ray_to_lamp room (@fresh_hitinfo world_env) None))
                eq_refl eq_refl eq_refl).
  vm_compute in H. discriminate H.
Qed.

Example Trace_into_lamp :
  fst (@Trace world_env 0 ray_to_lamp room 1 start) = Some white
  /\ m_Emission lamp_material = grey 50.
Proof. split; reflexivity. Qed.

Lemma Trace_emitter_returns_diffuse_witness :
  let hitinfo := snd (Cast ray_to_lamp room (@fresh_hitinfo world_env) None) in
  (no_emitters ray_to_lamp = false
   /\ (0 <= 1)%Z
   /\ Cast ray_to_lamp room (@fresh_hitinfo world_env) None = (true, hitinfo)
   /\ @Emitter world_env (material hitinfo) = true)
  /\ fst (@Trace world_env 0 ray_to_lamp room 1 start)
     = Some (m_Diffuse (material hitinfo)).
Proof.
  intros hitinfo.
  assert (Hdepth : (0 <= 1)%Z) by lia.
  split; [repeat split; try reflexivity; exact Hdepth|].
  exact (@Trace_emitter_returns_diffuse world_env 0%nat ray_to_lamp room 1%Z
           start hitinfo eq_refl Hdepth eq_refl eq_refl).
Defined.

Lemma Trace_background_witness :
  (fst (Cast ray_to_floor room (@fresh_hitinfo world_env) None) = false
   \/ (-1 < 0)%Z)
  /\ fst (@Trace world_env 0 ray_to_floor room (-1) start)
     = Some (bgcolor room).
Proof.
  assert (H : fst (Cast ray_to_floor room (@fresh_hitinfo world_env) None)
              = false \/ (-1 < 0)%Z) by (right; lia).
  split; [exact H|].
  exact (@Trace_background world_env 0%nat ray_to_floor room (-1)%Z start H).
Defined.

Lemma Shade_no_specular_bounce_witness :
  let hit := mkHitInfo (geom floor_hit) lamp_material in
  m_Phong_exp (material hit) <= 0
  /\ @indirect_specular world_env (@Trace world_env 0)
       (@SampleSpecularLobe world_env) hit room floor_view 5 (1 # 5) (1 # 5)
       (1 # 4) start
     = (Some Color_zero, start).
Proof.
  intros hit.
  assert (H : m_Phong_exp (material hit) <= 0) by discriminate.
  split; [exact H|].
  exact (@Shade_no_specular_bounce world_env (@Trace world_env 0)
           (@SampleSpecularLobe world_env) hit room floor_view 5%Z
           (1 # 5) (1 # 5) (1 # 4) start H).
Defined.

Lemma half_draws_in_range : forall k, 0 <= @rand_at world_env k 0 99 <= 99.
Proof. intros k. split; discriminate. Qed.

Lemma roulette_terminates_witness :
  (int_min <= 0 <= int_max - 7)%Z
  /\ exists num_reb iters n',
       @roulette_loop world_env 100 0 0 (draws start) = (num_reb, iters, n')
       /\ (iters <= 7)%nat
       /\ (0 <= num_reb)%Z
       /\ @roulette world_env 0 start = (Some num_reb, mkExec n' (calls start)).
Proof.
  assert (H : (int_min <= 0 <= int_max - 7)%Z) by (split; discriminate).
  split; [exact H|].
  exact (@roulette_terminates world_env 0%Z start H).
Defined.

Lemma roulette_bounds_witness :
  ((forall k, 0 <= @rand_at world_env k 0 99 <= 99)
   /\ (int_min <= 0 <= int_max - 7)%Z)
  /\ exists num_reb iters n',
       @roulette_loop world_env 100 0 0 0 = (num_reb, iters, n')
       /\ (iters <= 8)%nat
       /\ @roulette_loop world_env 100 0 0 0
          = @roulette_loop world_env (100 - 15) (0 + 1) 1 1
       /\ (0 + 1 <= num_reb <= 0 + 7)%Z.
Proof.
  assert (H : (int_min <= 0 <= int_max - 7)%Z) by (split; discriminate).
  split; [exact (conj half_draws_in_range H)|].
  exact (@roulette_bounds world_env 0%Z 0%nat half_draws_in_range H).
Defined.

Example roulette_half_draws :
  @roulette_loop world_env 100 0 0 0 = (4%Z, 5%nat, 5%nat).
Proof. reflexivity. Qed.

Lemma cast_line_never_suppresses_witness :
  let rt := mkRaytracer 2 2 0 [] false None in
  let world :=
    mkWorld (mkCamera (mkVec3 0 (- (5)) 2) (mkVec3 0 0 2) (mkVec3 0 0 1) 1)
            room in
  Forall unsuppressed (calls start)
  /\ Forall unsuppressed (calls (snd (@cast_line world_env 1 rt world start))).
Proof.
  intros rt world.
  assert (H : Forall unsuppressed (calls start)) by constructor.
  split; [exact H|].
  exact (@cast_line_never_suppresses world_env 1%nat rt world start H).
Defined.

(** C3 at the failing input: the point of the floor under two lamps,
    seen from [(-3, 0, 4)].  The floor has a positive Phong exponent;
    the second lamp is an emitter, it is not occluded, and its mirrored
    direction has a negative product with the viewing direction.  Yet
    [specular] after the second lamp is still what the first lamp left
    there, a fifth, and the second lamp adds (1/13 + 1/5) * 50 to
    [direct]: the diffuse term 1/13 times the irradiance 50 would be
    50/13. *)
Theorem Shade_specular_leaks_between_emitters :
  0 < m_Phong_exp (material floor_hit)
  /\ @Emitter world_env (Object.material lamp2) = true
  /\ lamp2_occluded = false
  /\ vdot mirrored_lamp2 floor_view < 0
  /\ red_of direct after_lamp1 == 18
  /\ red_of diffuse after_lamp2 == 1 # 13
  /\ red_of specular after_lamp2 == 1 # 5
  /\ red_of direct after_lamp2 == 18 + ((1 # 13) + (1 # 5)) * 50
  /\ ~ red_of direct after_lamp2 == 18 + (1 # 13) * 50.
Proof. vm_compute. repeat split; try reflexivity; discriminate. Qed.

(** The same run through [Trace]: the colour returned for the ray to the
    floor carries the leaked term. *)
Example Trace_floor_under_two_lamps :
  match fst (@Trace world_env 0 ray_to_floor room 1 start) with
  | Some c => red c == 18 + ((1 # 13) + (1 # 5)) * 50
  | None => False
  end.
Proof. vm_compute. reflexivity. Qed.

End Runs.

(** ** The hemisphere sampler *)

Section MainSampler.
Context {collaborators : Collaborators}.

(** The sampler of the integrator always returns, and its weight is the
    constant [Pi]. *)
Lemma SampleProjectedHemisphere_weight N st :
  exists S, fst (SampleProjectedHemisphere N st) = Some S /\ w S = Pi.
Proof. eexists. split; reflexivity. Qed.



End MainSampler.

Section BinarySampler.
Import Floats Binary64.


Example hemisphere_sample_below_zero :
  FVec3_dot (fst (Binary64.SampleProjectedHemisphere (mkFVec3 1 0 0) 0 1))
            (mkFVec3 1 0 0)
  = (-0x1p-52)%float.
Proof. vm_compute. reflexivity. Qed.

(** For the unit normal [(0, 0, -1)] the half vector is the zero vector,
    its normalisation divides zero by zero, and the direction is NaN. *)
Example hemisphere_sample_undefined :
  PrimFloat.leb 0
    (FVec3_dot (fst (Binary64.SampleProjectedHemisphere
                       (mkFVec3 0 0 (-1)) 0 1))
               (mkFVec3 0 0 (-1)))
  = false.
Proof. vm_compute. reflexivity. Qed.

End BinarySampler.


(** * Further properties *)

(** ** Cast *)

Section CastMore.

Lemma Cast_from_swap idx before_it object other after_it ray state :
  Cast_from idx (before_it ++ object :: after_it) ray
    (Some (idx + length before_it)%nat) state
  = Cast_from idx (before_it ++ other :: after_it) ray
      (Some (idx + length before_it)%nat) state.
Proof.
  revert idx state.
  induction before_it as [|first rest IH]; intros idx state; cbn [app length].
  - cbn [Cast_from]. f_equal.
    unfold Cast_step, is_ignored. destruct state as [hit hitinfo].
    rewrite Nat.add_0_r, Nat.eqb_refl. reflexivity.
  - cbn [Cast_from].
    replace (idx + S (length rest))%nat with (S idx + length rest)%nat by lia.
    apply IH.
Qed.

(** The object [Cast] is told to ignore has no part in the answer: with
    any other object in its place, the answer and the record are the
    same. *)
Theorem Cast_ignores_object (before_it after_it : list Object.t)
    (object other : Object.t) (bg : Color) (ray : Ray) (hitinfo : HitInfo) :
  Cast ray (mkScene (before_it ++ object :: after_it) bg) hitinfo
       (Some (length before_it))
  = Cast ray (mkScene (before_it ++ other :: after_it) bg) hitinfo
         (Some (length before_it)).
Proof. unfold Cast. cbn [objects]. apply (Cast_from_swap 0). Qed.

Lemma Cast_step_honest ray ignore idx object hit hitinfo :
  honest object ->
  Cast_step ray ignore idx object (hit, hitinfo) = (hit, hitinfo)
  \/ (is_ignored idx ignore = false
      /\ Object.Intersect object ray (geom hitinfo)
         = (true, snd (Object.Intersect object ray (geom hitinfo)))
      /\ distance (snd (Object.Intersect object ray (geom hitinfo)))
         < distance (geom hitinfo)
      /\ Cast_step ray ignore idx object (hit, hitinfo)
         = (true, mkHitInfo (snd (Object.Intersect object ray (geom hitinfo)))
                            (Object.material object))).
Proof.
  intros Hh. destruct (Hh ray (geom hitinfo)) as [Htrue Hfalse].
  unfold Cast_step.
  destruct (is_ignored idx ignore); cbn [negb]; [left; reflexivity|].
  destruct (Object.Intersect object ray (geom hitinfo)) as [[|] geom'];
    cbn [fst snd] in *.
  - right. repeat split. apply Htrue. reflexivity.
  - left. rewrite (Hfalse eq_refl). destruct hitinfo; reflexivity.
Qed.

Lemma Cast_from_honest objs : forall idx ray ignore hit hitinfo,
  Forall honest objs ->
  let result := Cast_from idx objs ray ignore (hit, hitinfo) in
  result = (hit, hitinfo)
  \/ (fst result = true
      /\ distance (geom (snd result)) < distance (geom hitinfo)
      /\ exists k object seen,
           nth_error objs k = Some object
           /\ is_ignored (idx + k) ignore = false
           /\ distance (geom (snd result)) < distance seen
           /\ Object.Intersect object ray seen = (true, geom (snd result))
           /\ material (snd result) = Object.material object).
Proof.
  induction objs as [|object rest IH]; intros idx ray ignore hit hitinfo Hall;
    cbn zeta; cbn [Cast_from].
  - left. reflexivity.
  - inversion Hall as [|? ? Hobj Hrest]; subst.
    destruct (Cast_step_honest ray ignore idx object hit hitinfo Hobj)
      as [Esame | (Hign & Hint & Hlt & Estep)].
    + rewrite Esame.
      destruct (IH (S idx) ray ignore hit hitinfo Hrest)
        as [E | (Hhit & Hd & k & o & g0 & Hk & Hi & Hc & Hint & Hm)].
      * left. exact E.
      * right. split; [exact Hhit|]. split; [exact Hd|].
        exists (S k), o, g0. cbn [nth_error].
        replace (idx + S k)%nat with (S idx + k)%nat by lia.
        repeat split; assumption.
    + rewrite Estep.
      set (written := mkHitInfo (snd (Object.Intersect object ray (geom hitinfo)))
                                (Object.material object)) in *.
      destruct (IH (S idx) ray ignore true written Hrest)
        as [E | (Hhit & Hd & k & o & g0 & Hk & Hi & Hc & Hint' & Hm)].
      * right. rewrite E. cbn [fst snd]. split; [reflexivity|].
        split; [exact Hlt|].
        exists 0%nat, object, (geom hitinfo). cbn [nth_error].
        rewrite Nat.add_0_r. repeat split; assumption.
      * right. split; [exact Hhit|].
        split; [eapply Qlt_trans; [exact Hd | exact Hlt]|].
        exists (S k), o, g0. cbn [nth_error].
        replace (idx + S k)%nat with (S idx + k)%nat by lia.
        repeat split; assumption.
Qed.

(** With honest intersectors, a call of [Cast] that answers false returns
    the record untouched; one that answers true returns a record with a
    strictly smaller distance, whose geometry and material come from one and
    the same object of the scene, which is not the ignored one: the
    geometry is what that object wrote when it answered true. *)
Theorem Cast_hit_is_coherent (ray : Ray) (scene : Scene) (hitinfo : HitInfo)
    (ignore : option nat) :
  Forall honest (objects scene) ->
  let result := Cast ray scene hitinfo ignore in
  (fst result = false -> snd result = hitinfo)
  /\ (fst result = true ->
      distance (geom (snd result)) < distance (geom hitinfo)
      /\ exists k object seen,
           nth_error (objects scene) k = Some object
           /\ is_ignored k ignore = false
           /\ distance (geom (snd result)) < distance seen
           /\ Object.Intersect object ray seen = (true, geom (snd result))
           /\ material (snd result) = Object.material object).
Proof.
  intros Hall result. subst result. unfold Cast.
  destruct (Cast_from_honest (objects scene) 0 ray ignore false hitinfo Hall)
    as [E | (Hhit & Hd & Hex)].
  - rewrite E. cbn [fst snd]. split; [reflexivity | discriminate].
  - split.
    + intros Hfalse. rewrite Hhit in Hfalse. discriminate.
    + intros _. split; [exact Hd | exact Hex].
Qed.

End CastMore.

(** ** Trace and Shade *)

Section ShadeMore.
Context {collaborators : Collaborators}.

(** A ray that suppresses emitters and whose closest hit is an emitter
    comes back black: [Trace] draws no random number for it, and calls
    neither [Shade] nor itself. *)
Theorem Trace_suppressed_emitter_is_black (fuel : nat) (ray : Ray)
    (scene : Scene) (max_tree_depth : Z) (st : Exec) (hitinfo : HitInfo) :
  no_emitters ray = true ->
  (0 <= max_tree_depth)%Z ->
  Cast ray scene fresh_hitinfo None = (true, hitinfo) ->
  Emitter (material hitinfo) = true ->
  Trace fuel ray scene max_tree_depth st
  = (Some Color_zero,
     mkExec (draws st)
       (EmitterSuppressed :: TraceCall ray max_tree_depth :: calls st)).
Proof.
  intros Hray Hdepth Hcast Hemit.
  rewrite Trace_unfold. unfold Trace_with, bind, record. cbn.
  rewrite Hcast, Hray, Hemit.
  assert (E : (-1 <? max_tree_depth)%Z = true) by (apply Z.ltb_lt; lia).
  rewrite E. reflexivity.
Qed.

Lemma Shade_with_parts trace hit scene max_tree_depth :
  Shade_with trace hit scene max_tree_depth =
  if Emitter (material hit) then ret (m_Diffuse (material hit))
  else
    let N := normal (geom hit) in
    let shadows :=
      mkRay (Vec3_add (point (geom hit)) (Vec3_scale Epsilon N))
            Vec3_default false in
    num_reb <- roulette max_tree_depth ;;
    u <- rand 0 1 ;;
    let V := Unit (Vec3_sub (point (geom hit)) (geom_origin (geom hit))) in
    lit <- direct_lighting hit scene V
             (mkDirectState shadows Color_zero Color_zero Color_zero) ;;
    indirect <- indirect_lighting trace hit scene V num_reb
                  (mean_diffuse hit) (mean_specular hit) u ;;
    ret (Color_add (direct lit) indirect).
Proof. reflexivity. Qed.

Lemma roulette_returns d st :
  exists num_reb n', roulette d st = (Some num_reb, mkExec n' (calls st)).
Proof.
  unfold roulette, with_rng.
  destruct (roulette_loop 100 d 0 (draws st)) as [[num_reb iters] n'].
  exists num_reb, n'. reflexivity.
Qed.

(** *** The direct lighting loop *)

Lemma direct_step_returns hit scene V idx object s st :
  exists s' n',
    direct_step hit scene V idx object s st = (Some s', mkExec n' (calls st)).
Proof.
  unfold direct_step, bind, with_rng, ret.
  destruct (Emitter (Object.material object) && true).
  - destruct (Object.GetSample object (point (geom hit)) (normal (geom hit))
                (draws st)) as [S n'].
    match goal with
    | |- context [if ?c then _ else _] => destruct c
    end; do 2 eexists; reflexivity.
  - exists s, (draws st). destruct st; reflexivity.
Qed.

Lemma direct_fold_returns hit scene V l : forall s st,
  exists s' n',
    foldM (fun io => direct_step hit scene V (fst io) (snd io)) l s st
    = (Some s', mkExec n' (calls st)).
Proof.
  induction l as [|io l IH]; intros s st; cbn [foldM].
  - exists s, (draws st). destruct st; reflexivity.
  - unfold bind.
    destruct (direct_step_returns hit scene V (fst io) (snd io) s st)
      as (s1 & n1 & E1).
    rewrite E1.
    destruct (IH s1 (mkExec n1 (calls st))) as (s2 & n2 & E2).
    rewrite E2. exists s2, n2. reflexivity.
Qed.

(** The loop over the objects always completes, and adds no event. *)
Lemma direct_lighting_returns hit scene V s st :
  exists s' n',
    direct_lighting hit scene V s st = (Some s', mkExec n' (calls st)).
Proof. apply direct_fold_returns. Qed.

Lemma direct_fold_no_emitters hit scene V objs : forall start s st,
  Forall (fun object => Emitter (Object.material object) = false) objs ->
  foldM (fun io => direct_step hit scene V (fst io) (snd io))
        (combine (seq start (length objs)) objs) s st
  = (Some s, st).
Proof.
  induction objs as [|object rest IH]; intros start s st Hall;
    cbn [length seq combine foldM]; [reflexivity|].
  inversion Hall as [|? ? Hobj Hrest]; subst.
  unfold bind. unfold direct_step at 1. cbn [fst snd].
  rewrite Hobj. cbn [andb]. unfold ret at 1.
  apply IH. exact Hrest.
Qed.

(** In a scene without emitters the loop over the objects changes
    nothing: the direct light stays what it was (the zero colour, in
    [Shade]), and no random number is drawn. *)
Theorem direct_lighting_without_emitters (hit : HitInfo) (scene : Scene)
    (V : Vec3) (s : DirectState) (st : Exec) :
  Forall (fun object => Emitter (Object.material object) = false)
         (objects scene) ->
  direct_lighting hit scene V s st = (Some s, st).
Proof. intros Hall. apply direct_fold_no_emitters. exact Hall. Qed.

(** An emitter that the shadow test finds occluded contributes nothing:
    the body of the loop leaves [diffuse], [specular] and [direct] as they
    were. *)
Theorem direct_step_occluded (hit : HitInfo) (scene : Scene) (V : Vec3)
    (idx : nat) (object : Object.t) (s : DirectState) (st : Exec) :
  Emitter (Object.material object) = true ->
  shadow_test hit scene idx object s (draws st) = true ->
  exists s', fst (direct_step hit scene V idx object s st) = Some s'
             /\ diffuse s' = diffuse s
             /\ specular s' = specular s
             /\ direct s' = direct s.
Proof.
  intros Hemit Hshadow. unfold shadow_test in Hshadow.
  unfold direct_step, bind, with_rng. rewrite Hemit. cbn [andb].
  destruct (Object.GetSample object (point (geom hit)) (normal (geom hit))
              (draws st)) as [S n'].
  cbn [fst] in Hshadow. rewrite Hshadow.
  eexists. repeat split.
Qed.

(** *** The indirect estimate *)

Lemma chained_comparison_cases (contriD u contriS : Q) :
  contriD + contriS <= 1 ->
  chained_comparison contriD u contriS
  = Qltb u contriD && Qltb 0 (contriD + contriS).
Proof.
  intros Hsum. unfold chained_comparison.
  destruct (Qle_bool contriD u) eqn:E.
  - apply Qle_bool_iff in E.
    assert (E1 : Qltb u contriD = false) by (apply Qltb_false; exact E).
    assert (E2 : Qltb 1 (contriD + contriS) = false)
      by (apply Qltb_false; exact Hsum).
    rewrite E1, E2. reflexivity.
  - assert (E1 : Qltb u contriD = true).
    { unfold Qltb. rewrite E. reflexivity. }
    rewrite E1. reflexivity.
Qed.

(** What the chained comparison [contriD <= u < (contriD + contriS)]
    amounts to when the two mean reflectances add up to at most 1: it
    holds exactly when [u < contriD] and the sum is positive, and not for
    [u] between [contriD] and the sum. *)
Theorem chained_comparison_meaning (contriD u contriS : Q) :
  contriD + contriS <= 1 ->
  chained_comparison contriD u contriS
  = Qltb u contriD && Qltb 0 (contriD + contriS).
Proof. apply chained_comparison_cases. Qed.

(** When [u] is not below the sum of [contriD] and [contriS], nothing is
    sampled and no bounce is traced. *)
Lemma indirect_lighting_skipped trace hit scene V num_reb contriD contriS u st :
  contriD + contriS <= u ->
  indirect_lighting trace hit scene V num_reb contriD contriS u st
  = (Some Color_zero, st).
Proof.
  intros Hu. unfold indirect_lighting. cbn zeta.
  apply Qltb_false in Hu. rewrite Hu. reflexivity.
Qed.

(** For values [contriD] and [contriS] that add up to at most 1 and a
    draw [u] that is not below [contriD], that is on the whole interval
    between [contriD] and the sum, the indirect estimate traces no bounce
    ray, neither the diffuse nor the specular one: it is the same for
    every tracer. *)
Theorem indirect_lighting_without_bounce
    (trace trace' : Ray -> Scene -> Z -> M Color)
    (hit : HitInfo) (scene : Scene) (V : Vec3) (num_reb : Z)
    (contriD contriS u : Q) (st : Exec) :
  contriD + contriS <= 1 ->
  contriD <= u ->
  indirect_lighting trace hit scene V num_reb contriD contriS u st
  = indirect_lighting trace' hit scene V num_reb contriD contriS u st.
Proof.
  intros Hsum Hu. unfold indirect_lighting, indirect_specular. cbn zeta.
  rewrite (chained_comparison_cases _ _ _ Hsum).
  apply Qltb_false in Hu. rewrite Hu.
  rewrite andb_false_l, andb_false_r. reflexivity.
Qed.

Lemma Shade_without_reflectance
    (trace : Ray -> Scene -> Z -> M Color)
    (hit : HitInfo) (scene : Scene) (max_tree_depth : Z) (st : Exec) :
  (forall n, 0 <= rand_at n 0 1) ->
  mean_diffuse hit + mean_specular hit <= 0 ->
  Shade_with trace hit scene max_tree_depth st
  = Shade_with (fun _ _ _ => out_of_fuel) hit scene max_tree_depth st
  /\ exists c, fst (Shade_with trace hit scene max_tree_depth st) = Some c.
Proof.
  intros Hrand Hblack.
  assert (Hskip : forall tr V num_reb n st',
             indirect_lighting tr hit scene V num_reb
               (mean_diffuse hit) (mean_specular hit) (rand_at n 0 1) st'
             = (Some Color_zero, st')).
  { intros. apply indirect_lighting_skipped.
    eapply Qle_trans; [exact Hblack | apply Hrand]. }
  destruct (roulette_returns max_tree_depth st) as (num_reb & n1 & Eroul).
  rewrite !Shade_with_parts.
  destruct (Emitter (material hit));
    [split; [reflexivity | eexists; reflexivity]|].
  cbn zeta. unfold bind, rand, with_rng. rewrite Eroul. cbn [draws calls].
  match goal with
  | |- context [direct_lighting ?h ?sc ?v ?s0 ?st0] =>
      destruct (direct_lighting_returns h sc v s0 st0) as (lit & n2 & Elit);
      rewrite Elit
  end.
  rewrite !Hskip.
  split; [reflexivity | eexists; reflexivity].
Qed.

(** A surface that reflects nothing ends the path.  When the mean
    reflectances of the material hit add up to nothing and [rand(0, 1)]
    never returns a negative number, [Shade] returns a colour without
    tracing any bounce ray: it does so even with a tracer that never
    answers, and every tracer gives the same result. *)
Theorem Shade_black_surface_is_terminal
    (trace : Ray -> Scene -> Z -> M Color)
    (hit : HitInfo) (scene : Scene) (max_tree_depth : Z) (st : Exec) :
  (forall n, 0 <= rand_at n 0 1) ->
  mean_diffuse hit + mean_specular hit <= 0 ->
  Shade_with trace hit scene max_tree_depth st
  = Shade_with (fun _ _ _ => out_of_fuel) hit scene max_tree_depth st
  /\ exists c, fst (Shade_with trace hit scene max_tree_depth st) = Some c.
Proof.
  apply Shade_without_reflectance.
Qed.

Lemma Cast_from_material objs : forall idx ray ignore hit hitinfo,
  let result := Cast_from idx objs ray ignore (hit, hitinfo) in
  (fst result = hit /\ material (snd result) = material hitinfo)
  \/ (fst result = true
      /\ exists object, In object objs
                        /\ material (snd result) = Object.material object).
Proof.
  induction objs as [|object rest IH]; intros idx ray ignore hit hitinfo;
    cbn zeta; cbn [Cast_from].
  - left. split; reflexivity.
  - assert (Hstep :
      let step := Cast_step ray ignore idx object (hit, hitinfo) in
      (fst step = hit /\ material (snd step) = material hitinfo)
      \/ (fst step = true /\ material (snd step) = Object.material object)).
    { unfold Cast_step.
      destruct (negb (is_ignored idx ignore)); [|left; split; reflexivity].
      destruct (Object.Intersect object ray (geom hitinfo)) as [[|] geom'];
        [right | left]; split; reflexivity. }
    cbn zeta in Hstep.
    destruct (Cast_step ray ignore idx object (hit, hitinfo)) as [hit1 h1].
    cbn [fst snd] in Hstep.
    destruct (IH (S idx) ray ignore hit1 h1)
      as [[Hh Hm] | (Hh & o & Hin & Hm)].
    + destruct Hstep as [[E1 E2] | [E1 E2]].
      * left. split; congruence.
      * right. split; [congruence|].
        exists object. split; [left; reflexivity | congruence].
    + right. split; [exact Hh|].
      exists o. split; [right; exact Hin | exact Hm].
Qed.

(** Paths end in a scene that reflects nothing.  When every material of
    the scene is an emitter or has mean reflectances that add up to
    nothing, and [rand(0, 1)] never returns a negative number, [Trace]
    returns a colour for every ray and depth without a single recursive
    call: it does so at the recursion budget zero. *)
Theorem Trace_ends_where_nothing_reflects (ray : Ray) (scene : Scene)
    (max_tree_depth : Z) (st : Exec) :
  (forall n, 0 <= rand_at n 0 1) ->
  Forall (fun object =>
            Emitter (Object.material object) = true
            \/ mean_reflectance (Object.material object) <= 0)
         (objects scene) ->
  exists c, fst (Trace 0 ray scene max_tree_depth st) = Some c.
Proof.
  intros Hrand Hall. rewrite Trace_unfold. unfold Trace_with, bind, record.
  cbn [fst snd].
  pose proof (Cast_from_material (objects scene) 0 ray None false fresh_hitinfo)
    as Hmat. cbn zeta in Hmat. fold (Cast ray scene fresh_hitinfo None) in Hmat.
  destruct (Cast ray scene fresh_hitinfo None) as [hit hitinfo].
  cbn [fst snd] in Hmat.
  destruct (hit && (-1 <? max_tree_depth)%Z) eqn:Ehit;
    [|eexists; reflexivity].
  destruct (Emitter (material hitinfo) && no_emitters ray);
    [eexists; reflexivity|].
  apply andb_true_iff in Ehit. destruct Ehit as [Ehit _]. subst hit.
  destruct Hmat as [[Hh _] | (_ & object & Hin & Hm)]; [discriminate Hh|].
  rewrite Forall_forall in Hall. specialize (Hall object Hin).
  unfold Shade. destruct Hall as [Hemit | Hblack].
  - unfold Shade_with. rewrite Hm, Hemit. eexists. reflexivity.
  - apply Shade_without_reflectance; [exact Hrand|].
    unfold mean_diffuse, mean_specular. unfold mean_reflectance in Hblack.
    rewrite Hm. exact Hblack.
Qed.

End ShadeMore.

(** ** The Russian roulette, turn by turn *)

Section RouletteMore.
Context {collaborators : Collaborators}.

Lemma same_triple (a a' : Z) (b b' c c' : nat) :
  a = a' -> b = b' -> c = c' -> (a, b, c) = (a', b', c').
Proof. intros; subst; reflexivity. Qed.

Ltac decide_test :=
  rewrite roulette_loop_step;
  match goal with
  | |- context [Qle_bool 0 ?p] =>
      let v := eval vm_compute in (Qle_bool 0 p) in
      change (Qle_bool 0 p) with v
  end;
  cbv iota.

Ltac read_draw H j :=
  let v := eval vm_compute in (inject_Z (Z.of_nat j)) in
  change (inject_Z (Z.of_nat j)) with v in H;
  rewrite ?Nat.add_succ_r, ?Nat.add_0_r in H.

Ltac accepted Hle j :=
  decide_test;
  let H := fresh "Hdraw" in
  pose proof (Hle j ltac:(lia)) as H; read_draw H j;
  match goal with
  | |- context [Qltb ?p ?a] =>
      replace (Qltb p a) with false by (symmetry; apply Qltb_false; lra)
  end;
  cbv iota.

Ltac refused Hgt j :=
  decide_test;
  let H := fresh "Hdraw" in
  pose proof (Hgt ltac:(lia)) as H; read_draw H j;
  match goal with
  | |- context [Qltb ?p ?a] =>
      replace (Qltb p a) with true by (symmetry; apply Qltb_true; lra)
  end;
  cbv iota; decide_test.

Ltac in_int d v :=
  try rewrite (wrap_int_id v) by (unfold int_min, int_max in *; lia).

Ltac count_up d :=
  in_int d (d + 1)%Z;
  in_int d (d + 1 + 1)%Z;
  in_int d (d + 1 + 1 + 1)%Z;
  in_int d (d + 1 + 1 + 1 + 1)%Z;
  in_int d (d + 1 + 1 + 1 + 1 + 1)%Z;
  in_int d (d + 1 + 1 + 1 + 1 + 1 + 1)%Z;
  in_int d (d + 1 + 1 + 1 + 1 + 1 + 1 + 1)%Z;
  cbn [Nat.min Z.of_nat]; apply same_triple; lia.

(** What the loop computes.  Turn [j], counting from 0, compares its draw
    with [100 - 15 * j].  If the draws of the turns before turn [k] are
    all accepted and the draw of turn [k] is refused, the loop leaves
    [num_reb = d + k] after [k + 1] turns and as many draws; if all seven
    draws are accepted it leaves [d + 7] after seven. *)
Theorem roulette_stops_at_first_refusal (d : Z) (n k : nat) :
  (int_min <= d <= int_max - 7)%Z ->
  (k <= 7)%nat ->
  (forall j, (j < k)%nat ->
             rand_at (n + j) 0 99 <= 100 - 15 * inject_Z (Z.of_nat j)) ->
  ((k < 7)%nat -> 100 - 15 * inject_Z (Z.of_nat k) < rand_at (n + k) 0 99) ->
  roulette_loop 100 d 0 n
  = ((d + Z.of_nat k)%Z, Nat.min (S k) 7, (n + Nat.min (S k) 7)%nat).
Proof.
  intros Hd Hk Hle Hgt.
  destruct k as [|[|[|[|[|[|[|[|k]]]]]]]]; [| | | | | | | |lia].
  - refused Hgt 0%nat. count_up d.
  - accepted Hle 0%nat. refused Hgt 1%nat. count_up d.
  - accepted Hle 0%nat. accepted Hle 1%nat. refused Hgt 2%nat. count_up d.
  - accepted Hle 0%nat. accepted Hle 1%nat. accepted Hle 2%nat.
    refused Hgt 3%nat. count_up d.
  - accepted Hle 0%nat. accepted Hle 1%nat. accepted Hle 2%nat.
    accepted Hle 3%nat. refused Hgt 4%nat. count_up d.
  - accepted Hle 0%nat. accepted Hle 1%nat. accepted Hle 2%nat.
    accepted Hle 3%nat. accepted Hle 4%nat. refused Hgt 5%nat. count_up d.
  - accepted Hle 0%nat. accepted Hle 1%nat. accepted Hle 2%nat.
    accepted Hle 3%nat. accepted Hle 4%nat. accepted Hle 5%nat.
    refused Hgt 6%nat. count_up d.
  - accepted Hle 0%nat. accepted Hle 1%nat. accepted Hle 2%nat.
    accepted Hle 3%nat. accepted Hle 4%nat. accepted Hle 5%nat.
    accepted Hle 6%nat. decide_test. count_up d.
Qed.

End RouletteMore.

(** ** The depth that is handed on *)

Section Depths.
Context {collaborators : Collaborators}.

Lemma holds_ret (E : Event -> Prop) {A} (Post : A -> Prop) (a : A) :
  Post a -> holds E Post (ret a).
Proof.
  intros Ha st Hst. split; [exact Hst|].
  intros a' Ea. cbn in Ea. injection Ea as <-. exact Ha.
Qed.

Lemma holds_bind (E : Event -> Prop) {A B} (Mid : A -> Prop)
    (Post : B -> Prop) (m : M A) (k : A -> M B) :
  holds E Mid m -> (forall a, Mid a -> holds E Post (k a)) ->
  holds E Post (bind m k).
Proof.
  intros Hm Hk st Hst. unfold bind.
  destruct (Hm st Hst) as [Hcalls Hres].
  destruct (m st) as [[a|] st']; cbn in *.
  - apply (Hk a (Hres a eq_refl) st' Hcalls).
  - split; [exact Hcalls | discriminate].
Qed.

Lemma holds_silent (E : Event -> Prop) {A} (m : M A) :
  silent m -> holds E (fun _ => True) m.
Proof.
  intros Hm st Hst. rewrite (Hm st). split; [exact Hst | intros; exact Logic.I].
Qed.

Lemma holds_foldM (E : Event -> Prop) {A S} (body : A -> S -> M S)
    (l : list A) :
  (forall a s, holds E (fun _ => True) (body a s)) ->
  forall s, holds E (fun _ => True) (foldM body l s).
Proof.
  intros Hbody. induction l as [|a l IH]; intros s; cbn [foldM].
  - apply holds_ret. exact Logic.I.
  - eapply holds_bind; [apply Hbody | intros s' _; apply IH].
Qed.

Lemma silent_with_rng {A} (f : nat -> A * nat) : silent (with_rng f).
Proof. intros st. unfold with_rng. destruct (f (draws st)). reflexivity. Qed.

Lemma silent_ret {A} (a : A) : silent (ret a).
Proof. intros st. reflexivity. Qed.

Lemma silent_bind {A B} (m : M A) (k : A -> M B) :
  silent m -> (forall a, silent (k a)) -> silent (bind m k).
Proof.
  intros Hm Hk st. unfold bind. specialize (Hm st).
  destruct (m st) as [[a|] st']; cbn in *.
  - rewrite (Hk a st'). exact Hm.
  - exact Hm.
Qed.

Lemma silent_direct_lighting hit scene V s : silent (direct_lighting hit scene V s).
Proof.
  intros st.
  destruct (direct_lighting_returns hit scene V s st) as (s' & n' & E).
  rewrite E. reflexivity.
Qed.

Lemma silent_SampleProjectedHemisphere N : silent (SampleProjectedHemisphere N).
Proof.
  unfold SampleProjectedHemisphere, rand.
  repeat (apply silent_bind; [apply silent_with_rng | intros ?]).
  apply silent_ret.
Qed.

Lemma silent_SampleSpecularLobe R phong_exp :
  silent (SampleSpecularLobe R phong_exp).
Proof.
  unfold SampleSpecularLobe, rand.
  repeat (apply silent_bind; [apply silent_with_rng | intros ?]).
  apply silent_ret.
Qed.

(** With every draw of [rand(0, 99)] in [0, 99], the roulette extends the
    depth by at least one and at most seven. *)
Lemma roulette_extends d st :
  (forall k, 0 <= rand_at k 0 99 <= 99) ->
  (int_min <= d <= int_max - 7)%Z ->
  exists num_reb n',
    roulette d st = (Some num_reb, mkExec n' (calls st))
    /\ (d + 1 <= num_reb <= d + 7)%Z.
Proof.
  intros Hdraw Hd. unfold roulette, with_rng.
  assert (Hin : forall v, (d <= v <= d + 7)%Z -> wrap_int v = v).
  { intros v Hv. apply wrap_int_id. unfold int_min, int_max in *. lia. }
  rewrite roulette_loop_step.
  change (Qle_bool 0 100) with true. cbv iota.
  assert (E : Qltb 100 (rand_at (draws st) 0 99) = false).
  { apply Qltb_false. destruct (Hdraw (draws st)) as [_ Hhi].
    eapply Qle_trans; [exact Hhi | discriminate]. }
  rewrite E, (Hin (d + 1)%Z) by lia.
  do 6 (rewrite roulette_loop_step;
        match goal with
        | |- context [Qle_bool 0 ?p] =>
            let v := eval vm_compute in (Qle_bool 0 p) in
            change (Qle_bool 0 p) with v
        end;
        cbv iota;
        match goal with
        | |- context [Qltb ?p ?a] => destruct (Qltb p a)
        end;
        [rewrite roulette_loop_step;
         change (Qle_bool 0 (-1)) with false; cbv iota;
         do 2 eexists; split; [reflexivity | lia]
        | match goal with
          | |- context [wrap_int ?v] => rewrite (Hin v) by lia
          end]).
  rewrite roulette_loop_step.
  match goal with
  | |- context [Qle_bool 0 ?p] =>
      let v := eval vm_compute in (Qle_bool 0 p) in
      change (Qle_bool 0 p) with v
  end.
  cbv iota. do 2 eexists; split; [reflexivity | lia].
Qed.

Lemma deep_indirect_specular trace hit scene V num_reb contriD contriS u :
  (forall ray, holds deep (fun _ => True) (trace ray scene num_reb)) ->
  holds deep (fun _ => True)
    (indirect_specular trace SampleSpecularLobe hit scene V num_reb
       contriD contriS u).
Proof.
  intros Htrace. unfold indirect_specular.
  match goal with
  | |- context [if ?c then _ else _] => destruct c
  end; [|apply holds_ret; exact Logic.I].
  eapply holds_bind;
    [apply holds_silent, silent_SampleSpecularLobe | intros S2 _].
  eapply holds_bind; [apply Htrace | intros traced _].
  apply holds_ret. exact Logic.I.
Qed.

Lemma deep_indirect_lighting trace hit scene V num_reb contriD contriS u :
  (forall ray, holds deep (fun _ => True) (trace ray scene num_reb)) ->
  holds deep (fun _ => True)
    (indirect_lighting trace hit scene V num_reb contriD contriS u).
Proof.
  intros Htrace. unfold indirect_lighting. cbn zeta.
  match goal with
  | |- context [if ?c then _ else _] => destruct c
  end; [|apply holds_ret; exact Logic.I].
  eapply holds_bind;
    [apply holds_silent, silent_SampleProjectedHemisphere | intros S1 _].
  eapply holds_bind with (Mid := fun _ => True).
  - match goal with
    | |- context [if ?c then _ else _] => destruct c
    end; [|apply holds_ret; exact Logic.I].
    eapply holds_bind; [apply Htrace | intros traced _].
    apply holds_ret. exact Logic.I.
  - intros indirect_diff _.
    eapply holds_bind with (Mid := fun _ => True).
    + apply deep_indirect_specular. exact Htrace.
    + intros indirect_spec _. apply holds_ret. exact Logic.I.
Qed.

Lemma deep_Shade_with trace hit scene d :
  (forall k, 0 <= rand_at k 0 99 <= 99) ->
  (int_min <= d <= int_max - 7)%Z ->
  deep_tracer (d + 1) (d + 7) trace ->
  holds deep (fun _ => True) (Shade_with trace hit scene d).
Proof.
  intros Hdraw Hd Htrace. rewrite Shade_with_parts.
  destruct (Emitter (material hit)); [apply holds_ret; exact Logic.I|].
  cbn zeta.
  eapply holds_bind with (Mid := fun num_reb => (d + 1 <= num_reb <= d + 7)%Z).
  - intros st Hst.
    destruct (roulette_extends d st Hdraw Hd) as (num_reb & n' & E & Hrange).
    rewrite E. cbn [fst snd calls]. split; [exact Hst|].
    intros a Ea. injection Ea as <-. exact Hrange.
  - intros num_reb Hrange.
    eapply holds_bind; [apply holds_silent, silent_with_rng | intros u _].
    eapply holds_bind;
      [apply holds_silent, silent_direct_lighting | intros lit _].
    eapply holds_bind with (Mid := fun _ => True).
    + apply deep_indirect_lighting. intros ray. apply Htrace, Hrange.
    + intros indirect _. apply holds_ret. exact Logic.I.
Qed.

Lemma deep_Trace fuel : forall ray scene d,
  (forall k, 0 <= rand_at k 0 99 <= 99) ->
  (tree_depth <= d)%Z ->
  (d + 6 * Z.of_nat fuel <= int_max - 6)%Z ->
  holds deep (fun _ => True) (Trace fuel ray scene d).
Proof.
  unfold tree_depth.
  induction fuel as [|fuel IH]; intros ray scene d Hdraw Hlo Hhi;
    rewrite Trace_unfold; unfold Trace_with.
  all: eapply holds_bind with (Mid := fun _ => True);
    [ intros st Hst; split; [cbn; constructor; [exact Hlo | exact Hst]
                            | intros; exact Logic.I]
    | intros _ _ ].
  all: destruct (Cast ray scene fresh_hitinfo None) as [hit hitinfo].
  all: destruct (hit && (-1 <? d)%Z); [|apply holds_ret; exact Logic.I].
  all: destruct (Emitter (material hitinfo) && no_emitters ray);
    [ eapply holds_bind with (Mid := fun _ => True);
      [ intros st Hst; split; [cbn; constructor; [exact Logic.I | exact Hst]
                              | intros; exact Logic.I]
      | intros _ _; apply holds_ret; exact Logic.I ]
    | ].
  all: assert (Hw : wrap_int (d - 1) = (d - 1)%Z)
    by (apply wrap_int_id; unfold int_min, int_max in *; lia).
  all: rewrite Hw; unfold Shade; apply deep_Shade_with;
    [ exact Hdraw | unfold int_min, int_max in *; lia | ].
  - intros r s k Hk. cbn. intros st Hst. split; [exact Hst | discriminate].
  - intros r s k Hk. cbn [bounce]. apply IH; [exact Hdraw | lia | lia].
Qed.

(** The depth never runs down.  When every draw of [rand(0, 99)] lies in
    [0, 99], every call of [Trace] in a run of [cast_line], the primary
    ones and every bounce below them, is made with a depth of at least
    [tree_depth]: the roulette hands on at least the depth [Trace] took
    away.  So the test [max_tree_depth > -1] of [Trace] never ends a path.
    (The bound on the recursion budget keeps the depths inside [int].) *)
Theorem cast_line_depth_never_runs_down (fuel : nat) (rt : Raytracer)
    (world : World) (st : Exec) :
  (forall k, 0 <= rand_at k 0 99 <= 99) ->
  (6 * Z.of_nat fuel <= int_max - 7)%Z ->
  Forall deep (calls st) ->
  Forall deep (calls (snd (cast_line fuel rt world st))).
Proof.
  intros Hdraw Hfuel Hst.
  assert (Htrace : forall ray,
             holds deep (fun _ => True)
               (Trace fuel ray (getScene world) tree_depth)).
  { intros ray. apply deep_Trace; [exact Hdraw | lia | unfold tree_depth; lia]. }
  assert (H : holds deep (fun _ => True) (cast_line fuel rt world)).
  { unfold cast_line. cbn zeta.
    eapply holds_bind with (Mid := fun _ => True).
    - apply holds_foldM. intros i s. unfold cast_pixel.
      eapply holds_bind with (Mid := fun _ => True).
      + destruct (rays_pixel =? 1)%Z.
        * eapply holds_bind; [apply Htrace | intros traced _].
          apply holds_ret. exact Logic.I.
        * apply holds_foldM. intros _ s0.
          eapply holds_bind; [apply holds_silent, silent_with_rng | intros a _].
          eapply holds_bind; [apply holds_silent, silent_with_rng | intros b _].
          eapply holds_bind; [apply Htrace | intros traced _].
          apply holds_ret. exact Logic.I.
      + intros s' _. apply holds_ret. exact Logic.I.
    - intros s _. destruct (_ =? _)%Z; apply holds_ret; exact Logic.I. }
  exact (proj1 (H st Hst)).
Qed.

End Depths.

(** ** cast_line and ToneMap *)

Section LineMore.
Context {collaborators : Collaborators}.

Lemma samples_keep_image fuel rt world O dR dU (i : Z) l : forall s st s',
  fst (foldM (fun (_ : nat) (s : LineState) =>
                a <- rand 0 1 ;;
                b <- rand 0 1 ;;
                let ray' :=
                  mkRay (origin (ray s))
                    (Unit (Vec3_sub
                             (Vec3_add O (Vec3_scale (inject_Z i + a - (1 # 2)) dR))
                             (Vec3_scale (inject_Z (currentLine rt) + b - (1 # 2)) dU)))
                    (no_emitters (ray s)) in
                traced <- Trace fuel ray' (getScene world) tree_depth ;;
                ret (mkLineState ray' (Color_add (color s) traced) (image s)))
             l s st) = Some s' ->
  image s' = image s.
Proof.
  induction l as [|a l IH]; intros s st s' E; cbn [foldM] in E.
  - cbn in E. injection E as <-. reflexivity.
  - unfold bind at 1 in E. unfold bind at 1 in E.
    unfold rand at 1, with_rng at 1 in E. cbn [fst snd] in E.
    unfold bind at 1 in E.
    unfold rand at 1, with_rng at 1 in E. cbn [fst snd draws calls] in E.
    unfold bind at 1 in E.
    match type of E with
    | context [Trace fuel ?r ?sc ?d ?st0] =>
        destruct (Trace fuel r sc d st0) as [[traced|] st1]
    end; [|discriminate E].
    unfold ret at 1 in E.
    apply IH in E. exact E.
Qed.

Lemma cast_pixel_writes fuel rt world O dR dU i s st s' :
  fst (cast_pixel fuel rt world O dR dU i s st) = Some s' ->
  exists pixel,
    image s' =
    ((resolutionY rt - currentLine rt - 1)%Z, Z.of_nat i, pixel) :: image s.
Proof.
  unfold cast_pixel. cbn zeta. unfold bind at 1.
  change (rays_pixel =? 1)%Z with false. cbv iota.
  match goal with
  | |- context [foldM ?body ?l s st] =>
      pose proof (samples_keep_image fuel rt world O dR dU (Z.of_nat i) l s st)
        as Hkeep;
      destruct (foldM body l s st) as [[s1|] st1]
  end; [|discriminate].
  specialize (Hkeep s1 eq_refl).
  cbn. intros E. injection E as <-. cbn [image]. rewrite Hkeep.
  eexists. reflexivity.
Qed.

Lemma pixels_of_line fuel rt world O dR dU l : forall s st s',
  fst (foldM (cast_pixel fuel rt world O dR dU) l s st) = Some s' ->
  exists pixels,
    image s' = pixels ++ image s
    /\ map fst pixels =
       rev (map (fun i => ((resolutionY rt - currentLine rt - 1)%Z, Z.of_nat i)) l).
Proof.
  induction l as [|i l IH]; intros s st s' E; cbn [foldM] in E.
  - cbn in E. injection E as <-. exists []. split; reflexivity.
  - unfold bind at 1 in E.
    pose proof (cast_pixel_writes fuel rt world O dR dU i s st) as Hpix.
    destruct (cast_pixel fuel rt world O dR dU i s st) as [[s1|] st1];
      [|discriminate E].
    destruct (Hpix s1 eq_refl) as [pixel Hs1].
    destruct (IH s1 st1 s' E) as (pixels & Himg & Hmap).
    exists (pixels ++ [((resolutionY rt - currentLine rt - 1)%Z, Z.of_nat i, pixel)]).
    split.
    + rewrite Himg, Hs1, <- app_assoc. reflexivity.
    + rewrite map_app, Hmap. cbn [map rev fst]. reflexivity.
Qed.

(** A call of [cast_line] that completes renders one row.  It leaves the
    resolution alone and advances [currentLine] by one; it assigns one
    pixel for each column [0 .. resolutionX - 1], in this order, all in the
    row [resolutionY - currentLine - 1], and no other pixel; it sets
    [isDone] and writes the image out exactly when the new [currentLine]
    equals [resolutionY], and otherwise leaves both as they were. *)
Theorem cast_line_renders_one_row (fuel : nat) (rt rt' : Raytracer)
    (world : World) (st : Exec) :
  fst (cast_line fuel rt world st) = Some rt' ->
  resolutionX rt' = resolutionX rt
  /\ resolutionY rt' = resolutionY rt
  /\ currentLine rt' = wrap_int (currentLine rt + 1)
  /\ (exists pixels,
        I rt' = pixels ++ I rt
        /\ map fst pixels =
           rev (map (fun i => ((resolutionY rt - currentLine rt - 1)%Z,
                               Z.of_nat i))
                    (seq 0 (Z.to_nat (resolutionX rt)))))
  /\ (if (currentLine rt' =? resolutionY rt)%Z
      then isDone rt' = true /\ Resultat_ppm rt' = Some (I rt')
      else isDone rt' = isDone rt /\ Resultat_ppm rt' = Resultat_ppm rt).
Proof.
  unfold cast_line. cbn zeta. unfold bind at 1.
  match goal with
  | |- context [foldM (cast_pixel fuel rt world ?O ?dR ?dU) ?l ?s0 st] =>
      pose proof (pixels_of_line fuel rt world O dR dU l s0 st) as Hpix;
      destruct (foldM (cast_pixel fuel rt world O dR dU) l s0 st)
        as [[s|] st1]
  end; [|discriminate].
  destruct (Hpix s eq_refl) as (pixels & Himg & Hmap). cbn [image] in Himg.
  destruct (wrap_int (currentLine rt + 1) =? resolutionY rt)%Z eqn:Eline;
    cbn; intros E; injection E as <-; cbn;
    rewrite Eline; repeat split; try reflexivity;
    exists pixels; split; assumption.
Qed.

(** Between colours without negative channels [ToneMap] keeps the order:
    a channel that is not smaller does not come out darker. *)
Theorem ToneMap_keeps_order (dim bright : Color) :
  fits_int (red bright) -> fits_int (green bright) -> fits_int (blue bright) ->
  0 <= red dim <= red bright ->
  0 <= green dim <= green bright ->
  0 <= blue dim <= blue bright ->
  (r (ToneMap dim) <= r (ToneMap bright))%Z
  /\ (g (ToneMap dim) <= g (ToneMap bright))%Z
  /\ (b (ToneMap dim) <= b (ToneMap bright))%Z.
Proof.
  assert (Hchannel : forall c1 c2, fits_int c2 -> 0 <= c1 <= c2 ->
                       (tone_channel c1 <= tone_channel c2)%Z).
  { intros c1 c2 Hfit [H0 H12].
    assert (Hf1 : (0 <= Qfloor (256 * c1))%Z).
    { apply Qfloor_ge_const. change (inject_Z 0) with 0. lra. }
    assert (Hf12 : (Qfloor (256 * c1) <= Qfloor (256 * c2))%Z).
    { apply Qfloor_resp_le. lra. }
    assert (Hfit1 : fits_int c1).
    { unfold fits_int, int_min in *. lia. }
    unfold tone_channel, int_of_floor.
    rewrite (wrap_int_id _ Hfit), (wrap_int_id _ Hfit1).
    unfold channel_of_int.
    destruct (Z.leb_spec 255 (Qfloor (256 * c1)));
      destruct (Z.leb_spec 255 (Qfloor (256 * c2)));
      rewrite ?Z.mod_small by lia; lia. }
  intros Hr Hg Hb Hred Hgreen Hblue. rewrite !ToneMap_by_channel. cbn [r g b].
  repeat split; apply Hchannel; assumption.
Qed.

End LineMore.


(** ** Further runs on the concrete scenes *)

Section RunsMore.
Import Demo.

Lemma rectangle_honest m cx cy h half weight :
  honest (rectangle m cx cy h half weight).
Proof.
  intros ray0 seen. unfold rectangle, rectangle_intersect. cbn.
  destruct (Qeq_bool (z (direction ray0)) 0); cbn;
    [split; [discriminate | reflexivity]|].
  match goal with
  | |- context [if ?c then _ else _] => destruct c eqn:E
  end; cbn; [|split; [discriminate | reflexivity]].
  split; [|discriminate]. intros _.
  repeat (apply andb_true_iff in E; destruct E as [E ?]).
  match goal with
  | H : Qltb _ (distance seen) = true |- _ => apply Qltb_true in H; exact H
  end.
Qed.

Lemma room_honest : Forall honest (objects room).
Proof. repeat constructor; apply rectangle_honest. Qed.

Lemma Cast_hit_is_coherent_witness :
  Forall honest (objects room)
  /\ (let result := Cast ray_to_floor room (@fresh_hitinfo world_env) None in
      (fst result = false -> snd result = @fresh_hitinfo world_env)
      /\ (fst result = true ->
          distance (geom (snd result)) < distance (geom (@fresh_hitinfo world_env))
          /\ exists k object seen,
               nth_error (objects room) k = Some object
               /\ is_ignored k None = false
               /\ distance (geom (snd result)) < distance seen
               /\ Object.Intersect object ray_to_floor seen
                  = (true, geom (snd result))
               /\ material (snd result) = Object.material object)).
Proof.
  split; [exact room_honest|].
  exact (Cast_hit_is_coherent ray_to_floor room (@fresh_hitinfo world_env) None
           room_honest).
Defined.

Lemma Trace_suppressed_emitter_is_black_witness :
  let hitinfo := snd (Cast probe_to_lamp room (@fresh_hitinfo world_env) None) in
  (no_emitters probe_to_lamp = true
   /\ (0 <= 1)%Z
   /\ Cast probe_to_lamp room (@fresh_hitinfo world_env) None = (true, hitinfo)
   /\ @Emitter world_env (material hitinfo) = true)
  /\ @Trace world_env 0 probe_to_lamp room 1 start
     = (Some Color_zero,
        mkExec (draws start)
          (EmitterSuppressed :: TraceCall probe_to_lamp 1 :: calls start)).
Proof.
  intros hitinfo.
  assert (Hdepth : (0 <= 1)%Z) by lia.
  split; [repeat split; try reflexivity; exact Hdepth|].
  exact (@Trace_suppressed_emitter_is_black world_env 0%nat probe_to_lamp room
           1%Z start hitinfo eq_refl Hdepth eq_refl eq_refl).
Defined.

Lemma dark_room_has_no_emitter :
  Forall (fun object => @Emitter world_env (Object.material object) = false)
         (objects dark_room).
Proof. repeat constructor. Qed.

Lemma direct_lighting_without_emitters_witness :
  Forall (fun object => @Emitter world_env (Object.material object) = false)
         (objects dark_room)
  /\ @direct_lighting world_env floor_hit dark_room floor_view before_lamps start
     = (Some before_lamps, start).
Proof.
  split; [exact dark_room_has_no_emitter|].
  exact (@direct_lighting_without_emitters world_env floor_hit dark_room
           floor_view before_lamps start dark_room_has_no_emitter).
Defined.

Lemma direct_step_occluded_witness :
  (@Emitter world_env (Object.material lamp1) = true
   /\ @shadow_test world_env floor_hit shaded_room 2 lamp1 before_lamps
        (draws start) = true)
  /\ exists s',
       fst (@direct_step world_env floor_hit shaded_room floor_view 2 lamp1
              before_lamps start) = Some s'
       /\ diffuse s' = diffuse before_lamps
       /\ specular s' = specular before_lamps
       /\ direct s' = direct before_lamps.
Proof.
  assert (Hemit : @Emitter world_env (Object.material lamp1) = true)
    by reflexivity.
  assert (Hshadow : @shadow_test world_env floor_hit shaded_room 2 lamp1
                      before_lamps (draws start) = true)
    by (vm_compute; reflexivity).
  split; [exact (conj Hemit Hshadow)|].
  exact (@direct_step_occluded world_env floor_hit shaded_room floor_view 2%nat
           lamp1 before_lamps start Hemit Hshadow).
Defined.

Lemma chained_comparison_meaning_witness :
  (1 # 5) + (1 # 5) <= 1
  /\ chained_comparison (1 # 5) (1 # 4) (1 # 5)
     = Qltb (1 # 4) (1 # 5) && Qltb 0 ((1 # 5) + (1 # 5)).
Proof.
  assert (H : (1 # 5) + (1 # 5) <= 1) by discriminate.
  split; [exact H|].
  exact (chained_comparison_meaning (1 # 5) (1 # 4) (1 # 5) H).
Defined.

Lemma indirect_lighting_without_bounce_witness :
  ((1 # 5) + (1 # 5) <= 1 /\ 1 # 5 <= 1 # 4)
  /\ @indirect_lighting world_env (@Trace world_env 0) floor_hit room
       floor_view 5 (1 # 5) (1 # 5) (1 # 4) start
     = @indirect_lighting world_env (fun _ _ _ => out_of_fuel) floor_hit room
         floor_view 5 (1 # 5) (1 # 5) (1 # 4) start.
Proof.
  assert (Hsum : (1 # 5) + (1 # 5) <= 1) by discriminate.
  assert (Hu : 1 # 5 <= 1 # 4) by discriminate.
  split; [exact (conj Hsum Hu)|].
  exact (@indirect_lighting_without_bounce world_env (@Trace world_env 0)
           (fun _ _ _ => out_of_fuel) floor_hit room floor_view 5%Z
           (1 # 5) (1 # 5) (1 # 4) start Hsum Hu).
Defined.



Lemma half_draws_not_negative : forall n, 0 <= @rand_at world_env n 0 1.
Proof. intros n. discriminate. Qed.

Lemma Shade_black_surface_is_terminal_witness :
  let hit := black_hit (geom floor_hit) in
  ((forall n, 0 <= @rand_at world_env n 0 1)
   /\ mean_diffuse hit + mean_specular hit <= 0)
  /\ (@Shade_with world_env (@Trace world_env 0) hit room 0 start
      = @Shade_with world_env (fun _ _ _ => out_of_fuel) hit room 0 start
      /\ exists c,
           fst (@Shade_with world_env (@Trace world_env 0) hit room 0 start)
           = Some c).
Proof.
  intros hit.
  assert (Hblack : mean_diffuse hit + mean_specular hit <= 0)
    by (vm_compute; discriminate).
  split; [exact (conj half_draws_not_negative Hblack)|].
  exact (@Shade_black_surface_is_terminal world_env (@Trace world_env 0) hit
           room 0%Z start half_draws_not_negative Hblack).
Defined.

Lemma soot_room_is_dead :
  Forall (fun object =>
            @Emitter world_env (Object.material object) = true
            \/ mean_reflectance (Object.material object) <= 0)
         (objects soot_room).
Proof.
  apply Forall_cons; [right; discriminate|].
  apply Forall_cons; [left; reflexivity|].
  apply Forall_nil.
Qed.

Lemma Trace_ends_where_nothing_reflects_witness :
  ((forall n, 0 <= @rand_at world_env n 0 1)
   /\ Forall (fun object =>
                @Emitter world_env (Object.material object) = true
                \/ mean_reflectance (Object.material object) <= 0)
             (objects soot_room))
  /\ exists c, fst (@Trace world_env 0 ray_to_floor soot_room 1 start) = Some c.
Proof.
  split; [exact (conj half_draws_not_negative soot_room_is_dead)|].
  exact (@Trace_ends_where_nothing_reflects world_env ray_to_floor soot_room
           1%Z start half_draws_not_negative soot_room_is_dead).
Defined.

Lemma half_draws_accepted :
  forall j, (j < 4)%nat ->
            @rand_at world_env (0 + j) 0 99 <= 100 - 15 * inject_Z (Z.of_nat j).
Proof.
  intros j Hj.
  destruct j as [|[|[|[|j]]]]; [discriminate | discriminate | discriminate
                               | discriminate | lia].
Qed.

Lemma half_draws_refused :
  (4 < 7)%nat ->
  100 - 15 * inject_Z (Z.of_nat 4) < @rand_at world_env (0 + 4) 0 99.
Proof. intros _. reflexivity. Qed.

Lemma roulette_stops_at_first_refusal_witness :
  ((int_min <= 0 <= int_max - 7)%Z
   /\ (4 <= 7)%nat
   /\ (forall j, (j < 4)%nat ->
         @rand_at world_env (0 + j) 0 99 <= 100 - 15 * inject_Z (Z.of_nat j))
   /\ ((4 < 7)%nat ->
       100 - 15 * inject_Z (Z.of_nat 4) < @rand_at world_env (0 + 4) 0 99))
  /\ @roulette_loop world_env 100 0 0 0
     = ((0 + Z.of_nat 4)%Z, Nat.min 5 7, (0 + Nat.min 5 7)%nat).
Proof.
  assert (Hd : (int_min <= 0 <= int_max - 7)%Z) by (split; discriminate).
  assert (Hk : (4 <= 7)%nat) by lia.
  split; [exact (conj Hd (conj Hk (conj half_draws_accepted half_draws_refused)))|].
  exact (@roulette_stops_at_first_refusal world_env 0%Z 0%nat 4%nat Hd Hk
           half_draws_accepted half_draws_refused).
Defined.

Lemma half_draws_percent : forall k, 0 <= @rand_at world_env k 0 99 <= 99.
Proof. intros k. split; discriminate. Qed.

Lemma cast_line_depth_never_runs_down_witness :
  ((forall k, 0 <= @rand_at world_env k 0 99 <= 99)
   /\ (6 * Z.of_nat 1 <= int_max - 7)%Z
   /\ Forall deep (calls start))
  /\ Forall deep
       (calls (snd (@cast_line world_env 1 first_line
                      (mkWorld (getCamera empty_world) room) start))).
Proof.
  assert (Hfuel : (6 * Z.of_nat 1 <= int_max - 7)%Z) by discriminate.
  assert (Hst : Forall deep (calls start)) by constructor.
  split; [exact (conj half_draws_percent (conj Hfuel Hst))|].
  exact (@cast_line_depth_never_runs_down world_env 1%nat first_line
           (mkWorld (getCamera empty_world) room) start
           half_draws_percent Hfuel Hst).
Defined.

Lemma first_line_renders :
  fst (@cast_line world_env 0 first_line empty_world start) = Some second_line.
Proof. vm_compute. reflexivity. Qed.

Lemma cast_line_renders_one_row_witness :
  fst (@cast_line world_env 0 first_line empty_world start) = Some second_line
  /\ (resolutionX second_line = resolutionX first_line
      /\ resolutionY second_line = resolutionY first_line
      /\ currentLine second_line = wrap_int (currentLine first_line + 1)
      /\ (exists pixels,
            I second_line = pixels ++ I first_line
            /\ map fst pixels =
               rev (map (fun i =>
                           ((resolutionY first_line - currentLine first_line - 1)%Z,
                            Z.of_nat i))
                        (seq 0 (Z.to_nat (resolutionX first_line)))))
      /\ (if (currentLine second_line =? resolutionY first_line)%Z
          then isDone second_line = true
               /\ Resultat_ppm second_line = Some (I second_line)
          else isDone second_line = isDone first_line
               /\ Resultat_ppm second_line = Resultat_ppm first_line)).
Proof.
  split; [exact first_line_renders|].
  exact (@cast_line_renders_one_row world_env 0%nat first_line second_line
           empty_world start first_line_renders).
Defined.

Example second_line_pixels :
  map fst (I second_line) = [(1%Z, 1%Z); (1%Z, 0%Z)]
  /\ currentLine second_line = 1%Z /\ isDone second_line = false.
Proof. vm_compute. repeat split. Qed.

Lemma ToneMap_keeps_order_witness :
  let dim := mkColor (1 # 4) 0 (1 # 2) in
  let bright := mkColor (1 # 2) (1 # 3) 2 in
  (fits_int (red bright) /\ fits_int (green bright) /\ fits_int (blue bright)
   /\ 0 <= red dim <= red bright
   /\ 0 <= green dim <= green bright
   /\ 0 <= blue dim <= blue bright)
  /\ ((r (ToneMap dim) <= r (ToneMap bright))%Z
      /\ (g (ToneMap dim) <= g (ToneMap bright))%Z
      /\ (b (ToneMap dim) <= b (ToneMap bright))%Z).
Proof.
  intros dim bright.
  assert (Hr : fits_int (red bright)) by (vm_compute; split; discriminate).
  assert (Hg : fits_int (green bright)) by (vm_compute; split; discriminate).
  assert (Hb : fits_int (blue bright)) by (vm_compute; split; discriminate).
  assert (Hred : 0 <= red dim <= red bright) by (split; discriminate).
  assert (Hgreen : 0 <= green dim <= green bright) by (split; discriminate).
  assert (Hblue : 0 <= blue dim <= blue bright) by (split; discriminate).
  split; [exact (conj Hr (conj Hg (conj Hb (conj Hred (conj Hgreen Hblue)))))|].
  exact (ToneMap_keeps_order dim bright Hr Hg Hb Hred Hgreen Hblue).
Defined.

End RunsMore.
